(** * Contract_Extraction: the chunked-extraction reconciliation pipeline

    A shallow embedding of the pure core of the repository:

    - [utils/merge_utils.py]: [_dedup_list], [_dedup_parties],
      [_dedup_clauses], [_postprocess_contract], [merge_json_objects];
    - [utils/json_fix.py]: the three cleaning steps and [fix_and_load];
    - [utils/token_utils.py]: [split_by_tokens];
    - [extractors/metadata_extractor.py]: [_extract_json], [SCHEMA_MAP],
      [_extract_single];
    - [schemas/*.py]: the record shapes and their construction from an
      untyped mapping.

    Conventions of the model.

    - A Python [str] is a Rocq [string]; a character stands for the code
      point of the same number, so the texts of the model are the texts over
      U+0000..U+00FF.
    - A JSON-like Python value is a [value]: [None], [bool], [int], [str],
      [list], [dict].  Numbers are integers; [float] is not modelled.
    - A [dict] is an association list in insertion order with pairwise
      distinct keys ([dict_wf]); [dict_set] is [d[k] = v].
    - The records handed to [merge_json_objects] are distinct objects that
      share no sub-object (they come from [model_dump]), so the in-place
      [update] of a nested dict is visible through the result only and
      values are modelled as trees.
    - A function that may raise returns a [result].
    - [json.loads] is a parameter of the functions that call it, [Some v]
      when it returns [v] and [None] when it raises.  [json_decode] is a
      reference decoder for the texts whose values are in the model; the
      closed examples run on it. *)

From Stdlib Require Import ZArith Lia Bool Ascii String List DecimalString.
From stdpp Require Import base gmap strings list.

Local Open Scope Z_scope.

(** ** Exceptions *)

Inductive exn : Type :=
| AttributeError
| ValidationError
| ValueError.

Inductive result (A : Type) : Type :=
| Ok (a : A)
| Raise (e : exn).

Arguments Ok {A} a.
Arguments Raise {A} e.

#[global] Instance result_ret : MRet result := fun A a => Ok a.
#[global] Instance result_bind : MBind result :=
  fun A B f m => match m with Ok a => f a | Raise e => Raise e end.

(** ** Characters and strings *)

Definition code (c : ascii) : Z := Z.of_nat (nat_of_ascii c).
Definition chr (n : Z) : ascii := ascii_of_nat (Z.to_nat n).

Definition dquote : ascii := chr 34.
Definition backslash : ascii := chr 92.
Definition apostrophe : ascii := chr 39.

(** [js] writes a text that holds double quotes with apostrophes in their
    place: each apostrophe of its argument stands for a double quote. *)
Fixpoint js (s : string) : string :=
  match s with
  | EmptyString => EmptyString
  | String c s' => String (if Ascii.eqb c apostrophe then dquote else c) (js s')
  end.

Definition in_range (lo hi : Z) (c : ascii) : bool :=
  (lo <=? code c) && (code c <=? hi).

(** [str.isspace] on one character, which is also [\s] of [re] on a [str]
    pattern: U+0009..U+000D, U+001C..U+0020, U+0085, U+00A0. *)
Definition is_space (c : ascii) : bool :=
  in_range 9 13 c || in_range 28 32 c || (code c =? 133) || (code c =? 160).

(** The class [[a-zA-Z0-9_]] of the patterns of [json_fix]. *)
Definition is_word (c : ascii) : bool :=
  in_range 97 122 c || in_range 65 90 c || in_range 48 57 c || (code c =? 95).

Definition is_digit (c : ascii) : bool := in_range 48 57 c.

(** [str.lower] on one character: A..Z and U+00C0..U+00DE except U+00D7. *)
Definition lower_char (c : ascii) : ascii :=
  if in_range 65 90 c || (in_range 192 222 c && negb (code c =? 215))
  then chr (code c + 32) else c.

Fixpoint lower (s : string) : string :=
  match s with
  | EmptyString => EmptyString
  | String c s' => String (lower_char c) (lower s')
  end.

Fixpoint lstrip (s : string) : string :=
  match s with
  | EmptyString => EmptyString
  | String c s' => if is_space c then lstrip s' else s
  end.

Fixpoint rstrip (s : string) : string :=
  match s with
  | EmptyString => EmptyString
  | String c s' =>
      match rstrip s' with
      | EmptyString => if is_space c then EmptyString else String c EmptyString
      | r => String c r
      end
  end.

Definition strip (s : string) : string := rstrip (lstrip s).

Definition str_empty (s : string) : bool :=
  match s with EmptyString => true | _ => false end.

(** [s[:n]] and [s[n:]] for [n >= 0]. *)
Fixpoint str_take (n : nat) (s : string) : string :=
  match n, s with
  | S n', String c s' => String c (str_take n' s')
  | _, _ => EmptyString
  end.

Fixpoint str_drop (n : nat) (s : string) : string :=
  match n, s with
  | S n', String _ s' => str_drop n' s'
  | _, _ => s
  end.

(** [s[i:j]] for [0 <= i]. *)
Definition slice (s : string) (i j : Z) : string :=
  str_take (Z.to_nat (j - i)) (str_drop (Z.to_nat i) s).

Definition len (s : string) : Z := Z.of_nat (String.length s).

(** [s.find(c)] and [s.rfind(c)] for a one-character needle: the index of
    the first (last) occurrence, [-1] when there is none. *)
Fixpoint find_from (c : ascii) (s : string) (i : Z) : Z :=
  match s with
  | EmptyString => -1
  | String x s' => if Ascii.eqb x c then i else find_from c s' (i + 1)
  end.

Definition find (s : string) (c : ascii) : Z := find_from c s 0.

Fixpoint rfind_from (c : ascii) (s : string) (i : Z) (last : Z) : Z :=
  match s with
  | EmptyString => last
  | String x s' => rfind_from c s' (i + 1) (if Ascii.eqb x c then i else last)
  end.

Definition rfind (s : string) (c : ascii) : Z := rfind_from c s 0 (-1).

Fixpoint concat_str (l : list string) : string :=
  match l with
  | [] => EmptyString
  | s :: l' => s +:+ concat_str l'
  end.

(** ** JSON-like values *)

#[warnings="-register-all"]
Inductive value : Type :=
| VNone
| VBool (b : bool)
| VInt (n : Z)
| VStr (s : string)
| VList (l : list value)
| VDict (d : list (string * value)).

Abbreviation dict := (list (string * value)).

Fixpoint dict_get (d : dict) (k : string) : option value :=
  match d with
  | [] => None
  | (k', v) :: d' => if String.eqb k' k then Some v else dict_get d' k
  end.

(** [d[k] = v]: an existing key keeps its place, a new one goes last. *)
Fixpoint dict_set (d : dict) (k : string) (v : value) : dict :=
  match d with
  | [] => [(k, v)]
  | (k', v') :: d' =>
      if String.eqb k' k then (k', v) :: d' else (k', v') :: dict_set d' k v
  end.

Definition dict_has (d : dict) (k : string) : bool :=
  match dict_get d k with Some _ => true | None => false end.

(** [d.update(new)]. *)
Definition dict_update (d new : dict) : dict :=
  fold_left (fun acc kv => dict_set acc (fst kv) (snd kv)) new d.

Definition keys (d : dict) : list string := fst <$> d.

Definition dict_wf (d : dict) : Prop := NoDup (keys d).

(** Truth value of a Python object, [bool(v)]. *)
Definition truthy (v : value) : bool :=
  match v with
  | VNone => false
  | VBool b => b
  | VInt n => negb (n =? 0)
  | VStr s => negb (str_empty s)
  | VList l => match l with [] => false | _ => true end
  | VDict d => match d with [] => false | _ => true end
  end.

(** ** [json.dumps(item, sort_keys=True, default=str)]

    On the values of the model [default] is never called.  Separators are
    [', '] and [': '], strings are escaped as [ensure_ascii] does. *)

Definition hex_digit (n : Z) : ascii :=
  if n <? 10 then chr (48 + n) else chr (87 + n).

Definition escape_char (c : ascii) : string :=
  if Ascii.eqb c dquote then String backslash (String dquote EmptyString)
  else if Ascii.eqb c backslash then String backslash (String backslash EmptyString)
  else if code c =? 10 then "\n"
  else if code c =? 13 then "\r"
  else if code c =? 9 then "\t"
  else if code c =? 8 then "\b"
  else if code c =? 12 then "\f"
  else if in_range 32 126 c then String c EmptyString
  else "\u00" +:+ String (hex_digit (code c / 16))
                   (String (hex_digit (code c mod 16)) EmptyString).

Fixpoint escape (s : string) : string :=
  match s with
  | EmptyString => EmptyString
  | String c s' => escape_char c +:+ escape s'
  end.

Definition encode_str (s : string) : string :=
  String dquote (escape s +:+ String dquote EmptyString).

Definition encode_int (n : Z) : string := NilZero.string_of_int (Z.to_int n).

Fixpoint join (sep : string) (l : list string) : string :=
  match l with
  | [] => EmptyString
  | [x] => x
  | x :: l' => x +:+ sep +:+ join sep l'
  end.

(** [sorted(d.items())] on items whose keys are pairwise distinct: an
    insertion sort on the key, strings ordered by code points. *)
Fixpoint insert_item {A} (x : string * A) (l : list (string * A)) : list (string * A) :=
  match l with
  | [] => [x]
  | y :: l' => if String.leb (fst x) (fst y) then x :: l else y :: insert_item x l'
  end.

Definition sort_items {A} (l : list (string * A)) : list (string * A) :=
  fold_right insert_item [] l.

Fixpoint json_dumps (v : value) : string :=
  match v with
  | VNone => "null"
  | VBool true => "true"
  | VBool false => "false"
  | VInt n => encode_int n
  | VStr s => encode_str s
  | VList l => "[" +:+ join ", " (map json_dumps l) +:+ "]"
  | VDict d =>
      "{" +:+ join ", "
                (map (fun kv => encode_str (fst kv) +:+ ": " +:+ snd kv)
                     (sort_items (map (fun kv => (fst kv, json_dumps (snd kv))) d)))
          +:+ "}"
  end.

(** ** utils/merge_utils.py *)

(** One turn of the loop of [_dedup_list] on the state [(seen, out)]. *)
Definition dedup_list_step (st : gset string * list value) (item : value)
  : gset string * list value :=
  let key := json_dumps item in
  if decide (key ∈ st.1) then st else ({[key]} ∪ st.1, st.2 ++ [item]).

Definition _dedup_list (lst : list value) : list value :=
  (fold_left dedup_list_step lst (∅, [])).2.

(** [x.get('name', '').strip().lower()]: [x] must be a dict and the name a
    string, or the attribute lookup raises. *)
Definition name_key (x : value) : result string :=
  match x with
  | VDict d =>
      match dict_get d "name" with
      | None => Ok (lower (strip EmptyString))
      | Some (VStr s) => Ok (lower (strip s))
      | Some _ => Raise AttributeError
      end
  | _ => Raise AttributeError
  end.

Definition dedup_parties_step (st : gset string * list value) (party : value)
  : result (gset string * list value) :=
  key ← name_key party;
  if negb (str_empty key) && bool_decide (key ∉ st.1)
  then Ok ({[key]} ∪ st.1, st.2 ++ [party])
  else Ok st.

Fixpoint dedup_parties_loop (st : gset string * list value) (parties : list value)
  : result (gset string * list value) :=
  match parties with
  | [] => Ok st
  | party :: rest => st' ← dedup_parties_step st party; dedup_parties_loop st' rest
  end.

Definition _dedup_parties (parties : list value) : result (list value) :=
  st ← dedup_parties_loop (∅, []) parties; Ok st.2.

(** [(clause.get('name', '').strip().lower(), bool(clause.get('present')))]. *)
Definition clause_key (x : value) : result (string * bool) :=
  n ← name_key x;
  match x with
  | VDict d =>
      Ok (n, match dict_get d "present" with Some p => truthy p | None => truthy VNone end)
  | _ => Raise AttributeError
  end.

Definition dedup_clauses_step (st : gset (string * bool) * list value) (clause : value)
  : result (gset (string * bool) * list value) :=
  key ← clause_key clause;
  if bool_decide (key ∉ st.1)
  then Ok ({[key]} ∪ st.1, st.2 ++ [clause])
  else Ok st.

Fixpoint dedup_clauses_loop (st : gset (string * bool) * list value) (clauses : list value)
  : result (gset (string * bool) * list value) :=
  match clauses with
  | [] => Ok st
  | clause :: rest => st' ← dedup_clauses_step st clause; dedup_clauses_loop st' rest
  end.

Definition _dedup_clauses (clauses : list value) : result (list value) :=
  st ← dedup_clauses_loop (∅, []) clauses; Ok st.2.

(** [data] is a dict at the only call site, so the first test of the source
    never fires. *)
Definition _postprocess_contract (data : dict) : result dict :=
  data1 ← match dict_get data "parties" with
           | Some (VList ps) => ps' ← _dedup_parties ps; Ok (dict_set data "parties" (VList ps'))
           | _ => Ok data
           end;
  match dict_get data1 "clauses" with
  | Some (VList cs) => cs' ← _dedup_clauses cs; Ok (dict_set data1 "clauses" (VList cs'))
  | _ => Ok data1
  end.

(** [v in (None, [], {}, '', 0)]: membership compares with [==], and
    [False == 0]. *)
Definition is_empty (v : value) : bool :=
  match v with
  | VNone => true
  | VList [] => true
  | VDict [] => true
  | VStr EmptyString => true
  | VInt 0 => true
  | VBool false => true
  | _ => false
  end.

Definition non_empty_items (d : dict) : dict :=
  List.filter (fun kv => negb (is_empty (snd kv))) d.

(** The body of the inner loop, lines 80-90, on the accumulator [result]. *)
Definition merge_item (result : dict) (kv : string * value) : dict :=
  let '(k, v) := kv in
  if is_empty v then result
  else
    match dict_get result k with
    | None => dict_set result k v
    | Some old =>
        if is_empty old then dict_set result k v
        else
          match v, old with
          | VList lv, VList lo => dict_set result k (VList (_dedup_list (lo ++ lv)))
          | VDict dv, VDict merged =>
              dict_set result k (VDict (dict_update merged (non_empty_items dv)))
          | _, _ => result
          end
    end.

Definition merge_obj (result : dict) (obj : dict) : dict :=
  fold_left merge_item obj result.

(** The two nested loops, from the empty accumulator. *)
Definition merge_fold (objs : list dict) : dict :=
  fold_left merge_obj objs [].

Definition merge_json_objects (objs : list dict) : result dict :=
  match objs with
  | [] => Ok []
  | _ => _postprocess_contract (merge_fold objs)
  end.

(** Values that are neither a list nor a dict. *)
Definition scalar (v : value) : bool :=
  match v with
  | VBool _ | VInt _ | VStr _ => true
  | _ => false
  end.

(** [False], the one value that is empty without being listed. *)
Definition is_false (v : value) : bool :=
  match v with
  | VBool false => true
  | _ => false
  end.

Definition without_false (obj : dict) : dict :=
  List.filter (fun kv => negb (is_false (snd kv))) obj.

(** ** utils/json_fix.py *)

(** [_JSON_FENCE_RE.sub('', text)] for the pattern
    [```[a-zA-Z0-9_]*|```]: every run of three backticks goes together with
    the word characters that follow it ([in_tag] is true while these are
    being consumed).  The second alternative never gets its turn, the first
    one matches wherever it would. *)
Fixpoint remove_fences (in_tag : bool) (s : string) : string :=
  match s with
  | EmptyString => EmptyString
  | String c s' =>
      if in_tag && is_word c then remove_fences true s'
      else
        match s with
        | String "`" (String "`" (String "`" rest)) => remove_fences true rest
        | _ => String c (remove_fences false s')
        end
  end.

Definition _strip_markdown_fence (text : string) : string :=
  strip (remove_fences false text).

(** Does [\s*[}\]]] match at the head of [s]? *)
Fixpoint closer_ahead (s : string) : bool :=
  match s with
  | EmptyString => false
  | String c s' =>
      if is_space c then closer_ahead s'
      else Ascii.eqb c "}" || Ascii.eqb c "]"
  end.

(** The replacement template [r'\\1'] is an escaped backslash followed by
    the digit 1: what is written in place of a match is the two characters
    backslash and [1], not the text of group 1. *)
Definition trailing_comma_repl : string := String backslash (String "1" EmptyString).

(** [re.sub(r',\s*([}\]])', r'\\1', s)].  [in_match] is true from the comma
    of a match to its closing bracket, which are dropped. *)
Fixpoint sub_trailing_commas (in_match : bool) (s : string) : string :=
  match s with
  | EmptyString => EmptyString
  | String c s' =>
      if in_match then
        (if is_space c then sub_trailing_commas true s'
         else sub_trailing_commas false s')
      else if Ascii.eqb c "," && closer_ahead s'
      then trailing_comma_repl +:+ sub_trailing_commas true s'
      else String c (sub_trailing_commas false s')
  end.

Definition _remove_trailing_commas (s : string) : string :=
  sub_trailing_commas false s.

(** Lookahead for the second pattern, from its end to its start: blanks and
    a colon; word characters, a quote, blanks and a colon; blanks, a quote,
    one word character and the rest of a key. *)
Fixpoint colon_ahead (s : string) : bool :=
  match s with
  | EmptyString => false
  | String c s' => if is_space c then colon_ahead s' else Ascii.eqb c ":"
  end.

Fixpoint key_rest_ahead (s : string) : bool :=
  match s with
  | EmptyString => false
  | String c s' =>
      if is_word c then key_rest_ahead s'
      else Ascii.eqb c dquote && colon_ahead s'
  end.

Fixpoint key_ahead (s : string) : bool :=
  match s with
  | EmptyString => false
  | String c s' =>
      if is_space c then key_ahead s'
      else Ascii.eqb c dquote &&
           match s' with
           | String w s'' => is_word w && key_rest_ahead s''
           | EmptyString => false
           end
  end.

Inductive comma_mode : Type :=
| Scan         (* looking for a match *)
| DropSpaces   (* inside group 1 of a match, after its quote *)
| CopyKey.     (* inside group 2 of a match *)

(** [re.sub] with the pattern of two groups, a quote followed by blanks and
    a quoted word followed by blanks and a colon, and the template made of a
    quote, a comma, a space and group 2: group 1 is replaced, group 2 is
    kept, and matching resumes after the colon. *)
Fixpoint sub_missing_commas (m : comma_mode) (s : string) : string :=
  match s with
  | EmptyString => EmptyString
  | String c s' =>
      match m with
      | Scan =>
          if Ascii.eqb c dquote && key_ahead s'
          then String dquote (", " +:+ sub_missing_commas DropSpaces s')
          else String c (sub_missing_commas Scan s')
      | DropSpaces =>
          if is_space c then sub_missing_commas DropSpaces s'
          else String c (sub_missing_commas CopyKey s')
      | CopyKey =>
          String c (sub_missing_commas (if Ascii.eqb c ":" then Scan else CopyKey) s')
      end
  end.

Definition _add_missing_commas (s : string) : string :=
  sub_missing_commas Scan s.

Definition CLEAN_STEPS : list (string -> string) :=
  [_strip_markdown_fence; _remove_trailing_commas; _add_missing_commas].

(** The loop [for fn in CLEAN_STEPS: cleaned = fn(cleaned)]. *)
Definition clean (blob : string) : string :=
  fold_left (fun cleaned fn => fn cleaned) CLEAN_STEPS blob.

Section FixAndLoad.

(** [json.loads]: [Some v] when it returns [v], [None] when it raises. *)
Variable json_loads : string -> option value.

(** The value returned is a Python object: [VNone] is [None], be it the
    [return None] of the last handler or a parsed [null]. *)
Definition fix_and_load (blob : string) : value :=
  match json_loads blob with
  | Some v => v
  | None =>
      let cleaned := clean blob in
      match json_loads cleaned with
      | Some v => v
      | None => VNone
      end
  end.

End FixAndLoad.

(** ** A reference decoder for [json.loads]

    [json_decode] follows the scanner of the [json] module on the fragment
    of the model: whitespace is space, tab, line feed and carriage return;
    strings are strict (no control character) with the escapes of JSON;
    an object keeps, for a repeated key, the place of the first pair and the
    value of the last.  Three kinds of text are outside the fragment and
    reported as [Unsupported]: a number with a fraction or an exponent, the
    constants NaN and Infinity (they decode to a [float]), and an escape
    beyond U+00FF. *)

Inductive parse (A : Type) : Type :=
| Parsed (a : A) (rest : string)
| SyntaxError
| Unsupported
| NoFuel.

Arguments Parsed {A} a rest.
Arguments SyntaxError {A}.
Arguments Unsupported {A}.
Arguments NoFuel {A}.

Definition is_json_ws (c : ascii) : bool :=
  (code c =? 32) || (code c =? 9) || (code c =? 10) || (code c =? 13).

Fixpoint skip_ws (s : string) : string :=
  match s with
  | EmptyString => EmptyString
  | String c s' => if is_json_ws c then skip_ws s' else s
  end.

Fixpoint strip_prefix (p s : string) : option string :=
  match p, s with
  | EmptyString, _ => Some s
  | String a p', String b s' => if Ascii.eqb a b then strip_prefix p' s' else None
  | String _ _, EmptyString => None
  end.

Definition hex_val (c : ascii) : option Z :=
  if in_range 48 57 c then Some (code c - 48)
  else if in_range 97 102 c then Some (code c - 87)
  else if in_range 65 70 c then Some (code c - 55)
  else None.

Definition unescape (c : ascii) : option ascii :=
  if Ascii.eqb c dquote then Some dquote
  else if Ascii.eqb c backslash then Some backslash
  else if Ascii.eqb c "/" then Some "/"%char
  else if Ascii.eqb c "b" then Some (chr 8)
  else if Ascii.eqb c "f" then Some (chr 12)
  else if Ascii.eqb c "n" then Some (chr 10)
  else if Ascii.eqb c "r" then Some (chr 13)
  else if Ascii.eqb c "t" then Some (chr 9)
  else None.

Definition parse_cons (c : ascii) (p : parse string) : parse string :=
  match p with
  | Parsed x rest => Parsed (String c x) rest
  | e => e
  end.

(** [eat c s] is the rest of [s] after its first character [c]. *)
Definition eat (c : ascii) (s : string) : option string :=
  match s with
  | String x r => if Ascii.eqb x c then Some r else None
  | EmptyString => None
  end.

(** The body of a string literal, after its opening quote. *)
Fixpoint scan_string (s : string) : parse string :=
  match s with
  | EmptyString => SyntaxError
  | String c s' =>
      if Ascii.eqb c dquote then Parsed EmptyString s'
      else if Ascii.eqb c backslash then
        match s' with
        | String e s'' =>
            if Ascii.eqb e "u" then
              match s'' with
              | String h1 (String h2 (String h3 (String h4 rest))) =>
                  match hex_val h1, hex_val h2, hex_val h3, hex_val h4 with
                  | Some a, Some b, Some c1, Some d =>
                      if (a =? 0) && (b =? 0)
                      then parse_cons (chr (16 * c1 + d)) (scan_string rest)
                      else Unsupported
                  | _, _, _, _ => SyntaxError
                  end
              | _ => SyntaxError
              end
            else
              match unescape e with
              | Some x => parse_cons x (scan_string s'')
              | None => SyntaxError
              end
        | EmptyString => SyntaxError
        end
      else if code c <? 32 then SyntaxError
      else parse_cons c (scan_string s')
  end.

Fixpoint scan_digits (acc : Z) (s : string) : Z * string :=
  match s with
  | EmptyString => (acc, s)
  | String c s' =>
      if is_digit c then scan_digits (10 * acc + (code c - 48)) s' else (acc, s)
  end.

(** An optional minus sign, then either 0 or a digit from 1 to 9 followed by
    digits, at the head of [s]: the integer part of a JSON number. *)
Definition scan_int (s : string) : option (Z * string) :=
  let '(neg, s1) := match eat "-" s with
                    | Some r => (true, r)
                    | None => (false, s)
                    end in
  match s1 with
  | String c r =>
      if Ascii.eqb c "0" then Some (0, r)
      else if in_range 49 57 c then
        let '(n, r') := scan_digits (code c - 48) r in
        Some (if neg then - n else n, r')
      else None
  | EmptyString => None
  end.

(** A fraction (a dot and a digit) or an exponent (e or E, an optional sign
    and a digit) at the head of [s]: the number is a float. *)
Definition float_ahead (s : string) : bool :=
  match s with
  | String "." (String d _) => is_digit d
  | String e r =>
      (Ascii.eqb e "e" || Ascii.eqb e "E") &&
      match r with
      | String g r' =>
          is_digit g ||
          ((Ascii.eqb g "+" || Ascii.eqb g "-") &&
           match r' with String d _ => is_digit d | EmptyString => false end)
      | EmptyString => false
      end
  | EmptyString => false
  end.

Definition starts_with (p s : string) : bool :=
  match strip_prefix p s with Some _ => true | None => false end.

Definition scan_atom (s : string) : parse value :=
  match strip_prefix "null" s, strip_prefix "true" s, strip_prefix "false" s with
  | Some r, _, _ => Parsed VNone r
  | _, Some r, _ => Parsed (VBool true) r
  | _, _, Some r => Parsed (VBool false) r
  | _, _, _ =>
      match scan_int s with
      | Some (n, r) => if float_ahead r then Unsupported else Parsed (VInt n) r
      | None =>
          if starts_with "NaN" s || starts_with "Infinity" s || starts_with "-Infinity" s
          then Unsupported else SyntaxError
      end
  end.

Fixpoint parse_value (fuel : nat) (s : string) : parse value :=
  match fuel with
  | O => NoFuel
  | S fuel =>
      match s with
      | String c s' =>
          if Ascii.eqb c dquote then
            match scan_string s' with
            | Parsed x r => Parsed (VStr x) r
            | SyntaxError => SyntaxError
            | Unsupported => Unsupported
            | NoFuel => NoFuel
            end
          else if Ascii.eqb c "{" then
            match eat "}" (skip_ws s') with
            | Some r => Parsed (VDict []) r
            | None => parse_members fuel [] (skip_ws s')
            end
          else if Ascii.eqb c "[" then
            match eat "]" (skip_ws s') with
            | Some r => Parsed (VList []) r
            | None => parse_elements fuel [] (skip_ws s')
            end
          else scan_atom s
      | EmptyString => SyntaxError
      end
  end

with parse_elements (fuel : nat) (acc : list value) (s : string) : parse value :=
  match fuel with
  | O => NoFuel
  | S fuel =>
      match parse_value fuel s with
      | Parsed v r =>
          match eat "]" (skip_ws r), eat "," (skip_ws r) with
          | Some r', _ => Parsed (VList (acc ++ [v])) r'
          | None, Some r' => parse_elements fuel (acc ++ [v]) (skip_ws r')
          | None, None => SyntaxError
          end
      | e => e
      end
  end

with parse_members (fuel : nat) (acc : dict) (s : string) : parse value :=
  match fuel with
  | O => NoFuel
  | S fuel =>
      match eat dquote s with
      | Some s' =>
          match scan_string s' with
          | Parsed k r =>
              match eat ":" (skip_ws r) with
              | Some r1 =>
                  match parse_value fuel (skip_ws r1) with
                  | Parsed v r2 =>
                      match eat "}" (skip_ws r2), eat "," (skip_ws r2) with
                      | Some r3, _ => Parsed (VDict (dict_set acc k v)) r3
                      | None, Some r3 =>
                          parse_members fuel (dict_set acc k v) (skip_ws r3)
                      | None, None => SyntaxError
                      end
                  | e => e
                  end
              | None => SyntaxError
              end
          | SyntaxError => SyntaxError
          | Unsupported => Unsupported
          | NoFuel => NoFuel
          end
      | None => SyntaxError
      end
  end.

(** A whole document: blanks, one value, blanks, the end of the text.  Every
    call of the parser that spends fuel without reading a character is
    followed by one that reads, so twice the length is fuel enough. *)
Definition parse_document (s : string) : parse value :=
  match parse_value (2 * String.length s + 2) (skip_ws s) with
  | Parsed v r =>
      match skip_ws r with
      | EmptyString => Parsed v EmptyString
      | _ => SyntaxError
      end
  | e => e
  end.

Definition json_decode (s : string) : option value :=
  match parse_document s with
  | Parsed v _ => Some v
  | _ => None
  end.

(** ** schemas/*.py

    The record shapes are pydantic models with the default configuration:
    a field is validated in lax mode, a missing field takes its default or,
    when it has none, fails, and a key that is no field is ignored. *)

Record Party : Type := {
  party_role : string;
  party_name : string
}.

Record Clause : Type := {
  clause_name : string;
  clause_present : bool;
  clause_text : option string
}.

(** The fields a subclass adds to [GenericContractSchema]. *)
Inductive variant_fields : Type :=
| GenericFields
| EmploymentFields (employee_name employer_name compensation probation_period : option string)
| NDAFields (confidentiality_period : option string) (non_compete : option bool)
| MSAFields (payment_terms : option string) (indemnification : option bool)
            (limitation_of_liability : option string).

Record GenericContractSchema : Type := {
  contract_type : string;
  parties : list Party;
  effective_date : option string;
  termination_date : option string;
  governing_law : option string;
  renewal_terms : option string;
  clauses : list Clause;
  custom_fields : dict;
  variant : variant_fields
}.

Inductive schema_cls : Type :=
| Generic
| EmploymentSchema
| NDASchema
| MSASchema.

(** The default of [contract_type]; the generic shape has none. *)
Definition default_contract_type (cls : schema_cls) : option string :=
  match cls with
  | Generic => None
  | EmploymentSchema => Some "employment"
  | NDASchema => Some "nda"
  | MSASchema => Some "service agreement"
  end.

(** The names of the fields of a shape. *)
Definition base_fields : list string :=
  ["contract_type"; "parties"; "effective_date"; "termination_date";
   "governing_law"; "renewal_terms"; "clauses"; "custom_fields"].

Definition fields (cls : schema_cls) : list string :=
  base_fields ++
  match cls with
  | Generic => []
  | EmploymentSchema =>
      ["employee_name"; "employer_name"; "compensation"; "probation_period"]
  | NDASchema => ["confidentiality_period"; "non_compete"]
  | MSASchema => ["payment_terms"; "indemnification"; "limitation_of_liability"]
  end.

Definition validate_str (v : value) : result string :=
  match v with
  | VStr s => Ok s
  | _ => Raise ValidationError
  end.

(** Lax [bool]: a bool, the integers 0 and 1, and a few words whatever
    their case. *)
Definition validate_bool (v : value) : result bool :=
  match v with
  | VBool b => Ok b
  | VInt 0 => Ok false
  | VInt 1 => Ok true
  | VStr s =>
      let w := lower s in
      if existsb (String.eqb w) ["0"; "off"; "f"; "false"; "n"; "no"] then Ok false
      else if existsb (String.eqb w) ["1"; "on"; "t"; "true"; "y"; "yes"] then Ok true
      else Raise ValidationError
  | _ => Raise ValidationError
  end.

Definition validate_optional {A} (validate : value -> result A) (v : value)
  : result (option A) :=
  match v with
  | VNone => Ok None
  | _ => a ← validate v; Ok (Some a)
  end.

Fixpoint map_result {A B} (f : A -> result B) (l : list A) : result (list B) :=
  match l with
  | [] => Ok []
  | x :: l' => y ← f x; ys ← map_result f l'; Ok (y :: ys)
  end.

Definition validate_list {A} (validate : value -> result A) (v : value)
  : result (list A) :=
  match v with
  | VList l => map_result validate l
  | _ => Raise ValidationError
  end.

Definition validate_dict (v : value) : result dict :=
  match v with
  | VDict d => Ok d
  | _ => Raise ValidationError
  end.

(** A field read from the keyword arguments [data]. *)
Definition field {A} (data : dict) (k : string) (validate : value -> result A)
    (default : result A) : result A :=
  match dict_get data k with
  | Some v => validate v
  | None => default
  end.

Definition required {A} : result A := Raise ValidationError.

Definition validate_party (v : value) : result Party :=
  match v with
  | VDict d =>
      r ← field d "role" validate_str required;
      n ← field d "name" validate_str required;
      Ok {| party_role := r; party_name := n |}
  | _ => Raise ValidationError
  end.

Definition validate_clause (v : value) : result Clause :=
  match v with
  | VDict d =>
      n ← field d "name" validate_str required;
      p ← field d "present" validate_bool required;
      t ← field d "text" (validate_optional validate_str) (Ok None);
      Ok {| clause_name := n; clause_present := p; clause_text := t |}
  | _ => Raise ValidationError
  end.

Definition opt_str (data : dict) (k : string) : result (option string) :=
  field data k (validate_optional validate_str) (Ok None).

Definition opt_bool (data : dict) (k : string) : result (option bool) :=
  field data k (validate_optional validate_bool) (Ok None).

Definition construct_variant (cls : schema_cls) (data : dict) : result variant_fields :=
  match cls with
  | Generic => Ok GenericFields
  | EmploymentSchema =>
      a ← opt_str data "employee_name";
      b ← opt_str data "employer_name";
      c ← opt_str data "compensation";
      d ← opt_str data "probation_period";
      Ok (EmploymentFields a b c d)
  | NDASchema =>
      a ← opt_str data "confidentiality_period";
      b ← opt_bool data "non_compete";
      Ok (NDAFields a b)
  | MSASchema =>
      a ← opt_str data "payment_terms";
      b ← opt_bool data "indemnification";
      c ← opt_str data "limitation_of_liability";
      Ok (MSAFields a b c)
  end.

(** [cls( **data )]. *)
Definition construct (cls : schema_cls) (data : dict) : result GenericContractSchema :=
  ct ← field data "contract_type" validate_str
         (match default_contract_type cls with
          | Some s => Ok s
          | None => required
          end);
  ps ← field data "parties" (validate_list validate_party) (Ok []);
  ed ← opt_str data "effective_date";
  td ← opt_str data "termination_date";
  gl ← opt_str data "governing_law";
  rt ← opt_str data "renewal_terms";
  cs ← field data "clauses" (validate_list validate_clause) (Ok []);
  cf ← field data "custom_fields" validate_dict (Ok []);
  vf ← construct_variant cls data;
  Ok {| contract_type := ct; parties := ps; effective_date := ed;
        termination_date := td; governing_law := gl; renewal_terms := rt;
        clauses := cs; custom_fields := cf; variant := vf |}.

(** ** extractors/metadata_extractor.py *)

(** The keys are [cls().contract_type.lower()]. *)
Definition SCHEMA_MAP : list (string * schema_cls) :=
  map (fun cls =>
         (lower (match default_contract_type cls with
                 | Some s => s
                 | None => EmptyString
                 end), cls))
      [EmploymentSchema; NDASchema; MSASchema].

Fixpoint schema_get (m : list (string * schema_cls)) (k : string) (default : schema_cls)
  : schema_cls :=
  match m with
  | [] => default
  | (k', cls) :: m' => if String.eqb k' k then cls else schema_get m' k default
  end.

Definition _extract_json (blob : string) : option string :=
  let start := find blob "{" in
  let end_ := rfind blob "}" in
  if (start =? -1) || (end_ =? -1) || (end_ <=? start) then None
  else Some (slice blob start (end_ + 1)).

Section ExtractSingle.

Variable json_loads : string -> option value.

(** [_extract_json(raw) or raw]. *)
Definition json_blob_of (raw : string) : string :=
  match _extract_json raw with
  | Some b => if str_empty b then raw else b
  | None => raw
  end.

(** [_extract_single] from the answer [raw] of the oracle on.  The call
    of the oracle itself, its latency and the log lines are left out. *)
Definition _extract_single (raw : string) : result GenericContractSchema :=
  let json_blob := json_blob_of raw in
  let data := fix_and_load json_loads json_blob in
  match data with
  | VNone =>
      construct Generic [("contract_type", VStr "unknown"); ("parties", VList [])]
  | VDict d =>
      label ← match dict_get d "contract_type" with
               | None => Ok (lower EmptyString)
               | Some (VStr s) => Ok (lower s)
               | Some _ => Raise AttributeError
               end;
      construct (schema_get SCHEMA_MAP label Generic) d
  | _ => Raise AttributeError
  end.

End ExtractSingle.

(** ** utils/token_utils.py *)

(** What [_get_encoder] returns: a tiktoken encoding, which has [encode]
    and [decode], or the approximation, which has [encode] only. *)
Inductive encoder : Type :=
| Tiktoken (encode : string -> result (list Z)) (decode : list Z -> result string)
| _Approx.

(** [math.ceil(n / 4)] for a length [n]. *)
Definition ceil_div4 (n : Z) : Z := (n + 3) / 4.

Definition approx_encode (text : string) : list Z :=
  repeat 0 (Z.to_nat (ceil_div4 (len text))).

Definition token_len (enc : encoder) (text : string) : Z :=
  match enc with
  | Tiktoken encode _ =>
      match encode text with
      | Ok toks => Z.of_nat (length toks)
      | Raise _ => ceil_div4 (len text)
      end
  | _Approx => Z.of_nat (length (approx_encode text))
  end.

(** [range(0, stop, step)] for [0 <= stop]: a zero step is a [ValueError], a
    negative one gives no index. *)
Definition py_range (stop step : Z) : result (list Z) :=
  if step =? 0 then Raise ValueError
  else if step <? 0 then Ok []
  else Ok (map (fun i => Z.of_nat i * step) (seq 0 (Z.to_nat ((stop + step - 1) / step)))).

(** [toks[i:j]] for [0 <= i]. *)
Definition slice_list {A} (l : list A) (i j : Z) : list A :=
  take (Z.to_nat (j - i)) (drop (Z.to_nat i) l).

(** The body of the [try]: it ends in [AttributeError] when the encoder has
    no [decode]. *)
Definition token_chunks (enc : encoder) (text : string) (max_tokens : Z)
  : result (list string) :=
  match enc with
  | Tiktoken encode decode =>
      toks ← encode text;
      idxs ← py_range (Z.of_nat (length toks)) max_tokens;
      map_result decode (map (fun i => slice_list toks i (i + max_tokens)) idxs)
  | _Approx =>
      let toks := approx_encode text in
      _ ← py_range (Z.of_nat (length toks)) max_tokens;
      Raise AttributeError
  end.

(** The handler of [AttributeError]: windows of [max_tokens * 4]
    characters. *)
Definition char_chunks (text : string) (max_tokens : Z) : result (list string) :=
  let char_step := max_tokens * 4 in
  idxs ← py_range (len text) char_step;
  Ok (map (fun i => slice text i (i + char_step)) idxs).

Definition split_by_tokens (enc : encoder) (text : string) (max_tokens : Z)
  : result (list string) :=
  match token_chunks enc text max_tokens with
  | Raise AttributeError => char_chunks text max_tokens
  | r => r
  end.

(** The split is in degraded mode when the body of the [try] ends in
    [AttributeError]. *)
Definition degraded (enc : encoder) (text : string) (max_tokens : Z) : Prop :=
  token_chunks enc text max_tokens = Raise AttributeError.

(** ** Predicates used to state the properties *)

(** An entry [x] of a parties or clauses list on which the name key can be
    computed: a dict whose [name] is a string or is missing. *)
Definition named (x : value) : bool :=
  match x with
  | VDict d =>
      match dict_get d "name" with
      | None => true
      | Some (VStr _) => true
      | Some _ => false
      end
  | _ => false
  end.

(** The two loops [_dedup_parties] and [_dedup_clauses] have one shape: a
    key is computed for each entry, and the entry is appended when its key
    is one to keep and has not been seen.  [dedup_by] is that loop for any
    key; [dedup_parties_by] and [dedup_clauses_by] below show that the two
    functions are instances of it. *)
Section DedupBy.

Context {K : Type} `{Countable K}.
Variable key_of : value -> result K.
Variable keep : K -> bool.

Definition dedup_by_step (st : gset K * list value) (x : value)
  : result (gset K * list value) :=
  key ← key_of x;
  if keep key && bool_decide (key ∉ st.1)
  then Ok ({[key]} ∪ st.1, st.2 ++ [x])
  else Ok st.

Fixpoint dedup_by_loop (st : gset K * list value) (xs : list value)
  : result (gset K * list value) :=
  match xs with
  | [] => Ok st
  | x :: rest => st' ← dedup_by_step st x; dedup_by_loop st' rest
  end.

Definition dedup_by (xs : list value) : result (list value) :=
  st ← dedup_by_loop (∅, []) xs; Ok st.2.

End DedupBy.

Definition non_empty_key (k : string) : bool := negb (str_empty k).
Definition any_key (k : string * bool) : bool := true.

(** Every value held by a mapping is non-empty. *)
Definition no_empty (d : dict) : Prop :=
  forall k v, (k, v) ∈ d -> is_empty v = false.

(** [grows old new]: what a key holds after more records have been merged,
    compared with what it held before.  A scalar is unchanged; a list keeps
    the serialization of each of its elements; a dict keeps its keys. *)
Definition grows (old new : value) : Prop :=
  match old, new with
  | VList lo, VList ln => forall x, x ∈ lo -> json_dumps x ∈ json_dumps <$> ln
  | VDict a, VDict b => forall kk, kk ∈ keys a -> kk ∈ keys b
  | _, _ => scalar old = true /\ new = old
  end.

(** One of the two steps of [_postprocess_contract]: the list held under
    [key], if there is one, is replaced by its deduplication. *)
Definition dedup_under (key : string) (dedup : list value -> result (list value))
    (data : dict) : result dict :=
  match dict_get data key with
  | Some (VList l) => l' ← dedup l; Ok (dict_set data key (VList l'))
  | _ => Ok data
  end.

(** An encoder with one token per character, its code: an example of an
    encoder whose [decode] is compositional. *)
Definition char_tokens (s : string) : list Z := map code (list_ascii_of_string s).
Definition char_text (toks : list Z) : string := string_of_list_ascii (map chr toks).
Definition char_encoder : encoder :=
  Tiktoken (fun s => Ok (char_tokens s)) (fun toks => Ok (char_text toks)).

(** Three backticks at the head of [s], and anywhere in [s]. *)
Definition is_backtick (c : ascii) : bool := Ascii.eqb c "`".

Definition fence_ahead (s : string) : bool :=
  match s with
  | String a (String b (String c _)) => is_backtick a && is_backtick b && is_backtick c
  | _ => false
  end.

Fixpoint has_fence (s : string) : bool :=
  match s with
  | EmptyString => false
  | String _ s' => fence_ahead s || has_fence s'
  end.

(** [c] does not occur in [s]. *)
Fixpoint no_char (c : ascii) (s : string) : bool :=
  match s with
  | EmptyString => true
  | String x s' => negb (Ascii.eqb x c) && no_char c s'
  end.

(** A text made of word characters only, and the line feed as a text. *)
Fixpoint all_word (s : string) : bool :=
  match s with
  | EmptyString => true
  | String c s' => is_word c && all_word s'
  end.

Definition nl : string := String (chr 10) EmptyString.

(** The text does not begin with a blank. *)
Definition head_ok (s : string) : bool :=
  match s with
  | EmptyString => true
  | String c _ => negb (is_space c)
  end.


(** A computation that raises nothing but [ValidationError]. *)
Definition validation_only {A} (m : result A) : Prop :=
  forall e, m = Raise e -> e = ValidationError.

(** * Properties *)

(** ** Dictionaries *)

Lemma dict_get_set_eq (d : dict) (k : string) (v : value) :
  dict_get (dict_set d k v) k = Some v.
Proof.
  induction d as [|[k' v'] d IH]; simpl.
  - now rewrite String.eqb_refl.
  - destruct (String.eqb k' k) eqn:E; simpl; rewrite E; auto.
Qed.

Lemma dict_get_set_ne (d : dict) (k k' : string) (v : value) :
  k <> k' -> dict_get (dict_set d k v) k' = dict_get d k'.
Proof.
  intros Hne. induction d as [|[k0 v0] d IH]; simpl.
  - apply String.eqb_neq in Hne. now rewrite Hne.
  - destruct (String.eqb k0 k) eqn:E; simpl.
    + apply String.eqb_eq in E. subst k0.
      apply String.eqb_neq in Hne. now rewrite Hne.
    + now rewrite IH.
Qed.

Lemma dict_get_None (d : dict) (k : string) :
  dict_get d k = None <-> k ∉ keys d.
Proof.
  induction d as [|[k' v'] d IH]; simpl.
  - split; [intros _; apply not_elem_of_nil | reflexivity].
  - rewrite not_elem_of_cons. destruct (String.eqb k' k) eqn:E.
    + apply String.eqb_eq in E. split; [discriminate | intros [H _]; congruence].
    + apply String.eqb_neq in E. rewrite IH. split; [intros H; split; congruence | tauto].
Qed.

Lemma dict_set_fresh (d : dict) (k : string) (v : value) :
  dict_get d k = None -> dict_set d k v = d ++ [(k, v)].
Proof.
  induction d as [|[k' v'] d IH]; simpl; auto.
  destruct (String.eqb k' k); [discriminate|].
  intros H. now rewrite IH.
Qed.

Lemma keys_app (d1 d2 : dict) : keys (d1 ++ d2) = keys d1 ++ keys d2.
Proof. apply fmap_app. Qed.

(** ** The merge loop *)

Lemma merge_item_empty (acc : dict) (k : string) (v : value) :
  is_empty v = true -> merge_item acc (k, v) = acc.
Proof. intros H. unfold merge_item. now rewrite H. Qed.

Lemma merge_item_fresh (acc : dict) (k : string) (v : value) :
  dict_get acc k = None ->
  merge_item acc (k, v) = if is_empty v then acc else acc ++ [(k, v)].
Proof.
  intros H. unfold merge_item. destruct (is_empty v); auto.
  rewrite H. now apply dict_set_fresh.
Qed.

(** A pair whose key is not [k] leaves the slot of [k] alone. *)
Lemma merge_item_other (acc : dict) (kv : string * value) (k : string) :
  fst kv <> k -> dict_get (merge_item acc kv) k = dict_get acc k.
Proof.
  destruct kv as [k' v]; simpl. intros Hne.
  destruct (is_empty v); auto.
  destruct (dict_get acc k') as [old|]; [|now apply dict_get_set_ne].
  destruct (is_empty old); [now apply dict_get_set_ne|].
  destruct v, old; auto; now apply dict_get_set_ne.
Qed.

Lemma merge_obj_cons (acc : dict) (kv : string * value) (obj : dict) :
  merge_obj acc (kv :: obj) = merge_obj (merge_item acc kv) obj.
Proof. reflexivity. Qed.

Lemma merge_obj_fresh (r acc : dict) :
  NoDup (keys r) ->
  (forall k, k ∈ keys r -> k ∉ keys acc) ->
  merge_obj acc r = acc ++ non_empty_items r.
Proof.
  revert acc. induction r as [|[k v] r IH]; intros acc Hnd Hfresh.
  - simpl. now rewrite app_nil_r.
  - apply NoDup_cons in Hnd as [Hk Hnd'].
    rewrite merge_obj_cons.
    rewrite merge_item_fresh by (apply dict_get_None, Hfresh, elem_of_cons; now left).
    unfold non_empty_items in *. simpl List.filter.
    destruct (is_empty v); simpl negb; cbv iota.
    + apply IH; auto. intros k' Hin. apply Hfresh, elem_of_cons. now right.
    + rewrite IH; auto.
      * now rewrite <- app_assoc.
      * intros k' Hin. rewrite keys_app, elem_of_app.
        change (keys [(k, v)]) with [k]. rewrite list_elem_of_singleton.
        intros [Hacc| ->]; [|exact (Hk Hin)].
        eapply Hfresh; [apply elem_of_cons; right|]; eauto.
Qed.

Lemma merge_obj_filter (p : string * value -> bool) (obj acc : dict) :
  (forall kv, p kv = false -> is_empty (snd kv) = true) ->
  merge_obj acc (List.filter p obj) = merge_obj acc obj.
Proof.
  intros Hp. revert acc.
  induction obj as [|[k v] obj IH]; intros acc; auto.
  rewrite merge_obj_cons. cbn [List.filter].
  destruct (p (k, v)) eqn:E.
  - rewrite merge_obj_cons. apply IH.
  - rewrite IH. specialize (Hp _ E).
    now rewrite (merge_item_empty acc k v Hp).
Qed.

Lemma merge_obj_other (obj acc : dict) (k : string) :
  k ∉ keys obj -> dict_get (merge_obj acc obj) k = dict_get acc k.
Proof.
  revert acc.
  induction obj as [|kv obj IH]; intros acc Hk; auto.
  simpl in Hk. apply not_elem_of_cons in Hk as [Hne Hk].
  rewrite merge_obj_cons, IH by assumption.
  apply merge_item_other. congruence.
Qed.

(** Once a key holds a non-empty scalar, no later pair changes it. *)
Lemma merge_item_keeps_scalar (acc : dict) (kv : string * value) (k : string) (v : value) :
  dict_get acc k = Some v -> scalar v = true -> is_empty v = false ->
  dict_get (merge_item acc kv) k = Some v.
Proof.
  intros Hget Hs Hne. destruct kv as [k' w].
  destruct (String.eqb k' k) eqn:E.
  - apply String.eqb_eq in E. subst k'. simpl.
    destruct (is_empty w); auto. rewrite Hget, Hne.
    destruct w, v; auto; discriminate.
  - apply String.eqb_neq in E. rewrite merge_item_other; auto.
Qed.

Lemma merge_obj_keeps_scalar (obj acc : dict) (k : string) (v : value) :
  dict_get acc k = Some v -> scalar v = true -> is_empty v = false ->
  dict_get (merge_obj acc obj) k = Some v.
Proof.
  revert acc.
  induction obj as [|kv obj IH]; intros acc Hget Hs Hne; auto.
  rewrite merge_obj_cons. apply IH; auto. now apply merge_item_keeps_scalar.
Qed.

(** The first record that gives [k] a non-empty scalar seeds the slot. *)
Lemma merge_obj_seeds_scalar (obj acc : dict) (k : string) (v : value) :
  dict_get acc k = None ->
  dict_get obj k = Some v -> scalar v = true -> is_empty v = false ->
  dict_get (merge_obj acc obj) k = Some v.
Proof.
  revert acc. induction obj as [|[k' w] obj IH]; intros acc Hacc Hget Hs Hne.
  - discriminate.
  - simpl in Hget. destruct (String.eqb k' k) eqn:E.
    + apply String.eqb_eq in E. subst k'. injection Hget as ->.
      rewrite merge_obj_cons.
      apply merge_obj_keeps_scalar; auto.
      rewrite merge_item_fresh, Hne by assumption.
      rewrite <- dict_set_fresh by assumption. apply dict_get_set_eq.
    + rewrite merge_obj_cons.
      apply IH; auto.
      rewrite merge_item_other; auto. simpl. now apply String.eqb_neq.
Qed.

(** The final pass rewrites list-valued [parties] and [clauses] only. *)
Lemma postprocess_keeps_scalar (data m : dict) (k : string) (v : value) :
  _postprocess_contract data = Ok m ->
  dict_get data k = Some v -> scalar v = true ->
  dict_get m k = Some v.
Proof.
  unfold _postprocess_contract. intros Hpost Hget Hs.
  assert (Hstep : forall (d : dict) (key : string) (r : result dict) f,
             dict_get d k = Some v ->
             match dict_get d key with
             | Some (VList l) => x ← f l; Ok (dict_set d key (VList x))
             | _ => Ok d
             end = r ->
             forall d', r = Ok d' -> dict_get d' k = Some v).
  { intros d key r f Hd Hr d' Hd'. subst r.
    destruct (dict_get d key) as [[]|] eqn:Ekey; try (injection Hd' as <-; assumption).
    destruct (f l) as [x|e]; simpl in Hd'; [|discriminate].
    injection Hd' as <-.
    destruct (String.eqb key k) eqn:E.
    - apply String.eqb_eq in E. subst key. rewrite Hd in Ekey.
      injection Ekey as ->. discriminate.
    - apply String.eqb_neq in E. now rewrite dict_get_set_ne. }
  destruct (match dict_get data "parties" with
            | Some (VList ps) => ps' ← _dedup_parties ps; Ok (dict_set data "parties" (VList ps'))
            | _ => Ok data
            end) as [data1|e] eqn:E1; simpl in Hpost; [|discriminate].
  eapply (Hstep data1 "clauses" _ _dedup_clauses); [|reflexivity|exact Hpost].
  eapply (Hstep data "parties" _ _dedup_parties); [exact Hget|reflexivity|exact E1].
Qed.

Lemma merge_fold_single (r : dict) : merge_fold [r] = merge_obj [] r.
Proof. reflexivity. Qed.

Lemma merge_fold_pair (r1 r2 : dict) :
  merge_fold [r1; r2] = merge_obj (merge_obj [] r1) r2.
Proof. reflexivity. Qed.

Lemma postprocess_scalar_singleton (k : string) (v : value) :
  scalar v = true -> _postprocess_contract [(k, v)] = Ok [(k, v)].
Proof.
  intros Hs. unfold _postprocess_contract. cbn [dict_get].
  destruct (String.eqb k "parties"), v; try discriminate;
    cbn; destruct (String.eqb k "clauses"); reflexivity.
Qed.

(** ** Claims on the merge engine *)

(** C1, as stated, fails: a record whose only pair has an empty value is
    merged to the empty mapping, so that pair does not appear in the
    result. *)
Lemma merge_single_drops_empty_value :
  dict_get [("a", VStr EmptyString)] "a" = Some (VStr EmptyString) /\
  merge_json_objects [[("a", VStr EmptyString)]] = Ok [] /\
  merge_json_objects
    [[("a", VInt 0); ("b", VList []); ("c", VDict []); ("d", VNone); ("e", VStr "x")]]
  = Ok [("e", VStr "x")].
Proof. split; [|split]; vm_compute; reflexivity. Qed.

(** C1, amended: merging the one-element sequence [[r]] yields the pairs of
    [r] whose value is not empty, in the order of [r] and unchanged, passed
    through the final dedup of parties and clauses; pairs with an empty
    value are dropped. *)
Theorem merge_single_non_empty (r : dict) :
  dict_wf r ->
  merge_json_objects [r] = _postprocess_contract (non_empty_items r).
Proof.
  intros Hwf. unfold merge_json_objects.
  rewrite merge_fold_single, merge_obj_fresh; auto.
  intros k _. apply not_elem_of_nil.
Qed.

(** C5: when two records give a key two non-empty scalars, the merge keeps
    the value of the record that comes first and drops the other one;
    swapping the two records swaps the value kept. *)
Theorem merge_first_scalar_wins (r1 r2 : dict) (k : string) (v1 v2 : value) :
  dict_get r1 k = Some v1 -> dict_get r2 k = Some v2 ->
  scalar v1 = true -> scalar v2 = true ->
  is_empty v1 = false -> is_empty v2 = false ->
  (dict_get (merge_fold [r1; r2]) k = Some v1 /\
   dict_get (merge_fold [r2; r1]) k = Some v2) /\
  (forall m, merge_json_objects [r1; r2] = Ok m -> dict_get m k = Some v1) /\
  (forall m, merge_json_objects [r2; r1] = Ok m -> dict_get m k = Some v2) /\
  merge_json_objects [[(k, v1)]; [(k, v2)]] = Ok [(k, v1)] /\
  merge_json_objects [[(k, v2)]; [(k, v1)]] = Ok [(k, v2)].
Proof.
  intros H1 H2 Hs1 Hs2 Hn1 Hn2.
  assert (Hfold : forall a b va,
             dict_get a k = Some va -> scalar va = true -> is_empty va = false ->
             dict_get (merge_fold [a; b]) k = Some va).
  { intros a b va Ha Hsa Hna. rewrite merge_fold_pair.
    apply merge_obj_keeps_scalar; auto.
    apply merge_obj_seeds_scalar; auto. }
  assert (Hone : forall va vb,
             scalar va = true -> is_empty va = false ->
             merge_json_objects [[(k, va)]; [(k, vb)]] = Ok [(k, va)]).
  { intros va vb Hsa Hna. unfold merge_json_objects.
    rewrite merge_fold_pair. cbn [merge_obj fold_left].
    rewrite (merge_item_fresh [] k va), Hna by reflexivity.
    cbn [app merge_item dict_get]. rewrite String.eqb_refl, Hna.
    assert (Hkeep : (if is_empty vb then [(k, va)]
                     else match vb, va with
                          | VList lv, VList lo =>
                              dict_set [(k, va)] k (VList (_dedup_list (lo ++ lv)))
                          | VDict dv, VDict merged =>
                              dict_set [(k, va)] k
                                (VDict (dict_update merged (non_empty_items dv)))
                          | _, _ => [(k, va)]
                          end) = [(k, va)]).
    { destruct (is_empty vb); auto. destruct vb, va; auto; discriminate. }
    rewrite Hkeep. now apply postprocess_scalar_singleton. }
  repeat split; auto.
  - intros m Hm. eapply postprocess_keeps_scalar; eauto.
  - intros m Hm. eapply postprocess_keeps_scalar; eauto.
Qed.

Lemma merge_first_scalar_wins_witness :
  dict_get (merge_fold [[("a", VStr "first")]; [("a", VStr "second")]]) "a"
    = Some (VStr "first") /\
  dict_get (merge_fold [[("a", VStr "second")]; [("a", VStr "first")]]) "a"
    = Some (VStr "second") /\
  merge_json_objects [[("a", VStr "first")]; [("a", VStr "second")]]
    = Ok [("a", VStr "first")] /\
  merge_json_objects [[("a", VStr "second")]; [("a", VStr "first")]]
    = Ok [("a", VStr "second")].
Proof.
  destruct (merge_first_scalar_wins
              [("a", VStr "first")] [("a", VStr "second")] "a"
              (VStr "first") (VStr "second")
              eq_refl eq_refl eq_refl eq_refl eq_refl eq_refl)
    as [[Ha Hb] [_ [_ [Hc Hd]]]].
  repeat split; assumption.
Defined.

(** C9: [False] counts as empty.  A pair whose value is [False] leaves the
    accumulator as it is, whatever it holds; merging any sequence of records
    gives what merging them with their [False]-valued pairs removed gives;
    and a lone [non_compete: false] is merged to the empty mapping. *)
Theorem merge_false_is_empty :
  is_empty (VBool false) = true /\
  (forall (acc : dict) (k : string), merge_item acc (k, VBool false) = acc) /\
  (forall objs : list dict,
      merge_json_objects objs = merge_json_objects (map without_false objs)) /\
  merge_json_objects [[("non_compete", VBool false)]] = Ok [].
Proof.
  split; [reflexivity|]. split; [reflexivity|]. split; [|reflexivity].
  intros objs.
  assert (Hfold : forall acc, fold_left merge_obj (map without_false objs) acc
                              = fold_left merge_obj objs acc).
  { induction objs as [|obj objs IH]; intros acc; simpl; auto.
    rewrite IH. f_equal. apply merge_obj_filter.
    intros [k v]; simpl. destruct v as [| [] | | | |]; simpl; congruence. }
  destruct objs as [|obj objs]; [reflexivity|].
  unfold merge_json_objects, merge_fold. cbn [map]. now rewrite <- Hfold.
Qed.

(** ** The dedup loops *)

Lemma dedup_list_seen (lst : list value) (st : gset string * list value) (key : string) :
  key ∈ (fold_left dedup_list_step lst st).1 <->
  key ∈ st.1 \/ key ∈ json_dumps <$> lst.
Proof.
  revert st. induction lst as [|item lst IH]; intros st; simpl.
  - rewrite elem_of_nil. tauto.
  - rewrite IH, elem_of_cons. unfold dedup_list_step.
    destruct (decide (json_dumps item ∈ st.1)) as [Hin|Hout]; simpl.
    + split; [tauto|]. intros [H|[->|H]]; auto.
    + rewrite elem_of_union, elem_of_singleton. tauto.
Qed.

Lemma dedup_list_nil : _dedup_list [] = [].
Proof. reflexivity. Qed.

(** The element that comes last is kept exactly when no element before it
    has the same serialization; the elements before it fare as without
    it. *)
Lemma dedup_list_snoc (l : list value) (x : value) :
  _dedup_list (l ++ [x]) =
  _dedup_list l ++ (if decide (json_dumps x ∈ json_dumps <$> l) then [] else [x]).
Proof.
  unfold _dedup_list. rewrite fold_left_app. simpl.
  unfold dedup_list_step at 1.
  pose proof (dedup_list_seen l (∅, []) (json_dumps x)) as Hseen. simpl in Hseen.
  destruct (decide (json_dumps x ∈ (fold_left dedup_list_step l (∅, [])).1)) as [Hin|Hout];
    destruct (decide (json_dumps x ∈ json_dumps <$> l)) as [Hin'|Hout']; simpl.
  - now rewrite app_nil_r.
  - exfalso. apply Hseen in Hin as [Hin|Hin]; [set_solver | auto].
  - exfalso. apply Hout, Hseen. now right.
  - reflexivity.
Qed.

Lemma dedup_parties_loop_app (l1 l2 : list value) (st : gset string * list value) :
  dedup_parties_loop st (l1 ++ l2) =
  (st' ← dedup_parties_loop st l1; dedup_parties_loop st' l2).
Proof.
  revert st. induction l1 as [|p l1 IH]; intros st; simpl; auto.
  destruct (dedup_parties_step st p) as [st'|e]; simpl; auto.
Qed.

Lemma dedup_parties_seen (ps : list value) (st st' : gset string * list value) (key : string) :
  dedup_parties_loop st ps = Ok st' ->
  key ∈ st'.1 <->
  key ∈ st.1 \/ (key <> EmptyString /\ exists q, q ∈ ps /\ name_key q = Ok key).
Proof.
  revert st. induction ps as [|p ps IH]; intros st Hloop; simpl in Hloop.
  - injection Hloop as <-. split; auto.
    intros [H|[_ [q [Hq _]]]]; auto. now apply elem_of_nil in Hq.
  - destruct (dedup_parties_step st p) as [st1|e] eqn:Hstep; simpl in Hloop; [|discriminate].
    rewrite (IH _ Hloop). clear IH Hloop.
    unfold dedup_parties_step in Hstep.
    destruct (name_key p) as [kp|e] eqn:Hkp; simpl in Hstep; [|discriminate].
    assert (Hq : (exists q, q ∈ p :: ps /\ name_key q = Ok key) <->
                 kp = key \/ exists q, q ∈ ps /\ name_key q = Ok key).
    { split.
      - intros [q [Hq Hk]]. apply elem_of_cons in Hq as [->|Hq]; [left; congruence|eauto].
      - intros [<-|[q [Hq Hk]]]; [exists p|exists q]; rewrite elem_of_cons; auto. }
    rewrite Hq. clear Hq.
    destruct (negb (str_empty kp) && bool_decide (kp ∉ st.1)) eqn:Hc;
      injection Hstep as <-; simpl.
    + apply andb_true_iff in Hc as [Hne Hfresh].
      assert (kp <> EmptyString) by (destruct kp; [discriminate|congruence]).
      rewrite elem_of_union, elem_of_singleton.
      split; [intros [[->|H']|H']; tauto | intros [H'|[Hk [<-|H']]]; tauto].
    + apply andb_false_iff in Hc as [Hemp|Hseen].
      * assert (kp = EmptyString) by (destruct kp; [reflexivity|discriminate]).
        split; [tauto|]. intros [H'|[Hk [<-|H']]]; tauto.
      * apply bool_decide_eq_false in Hseen. apply dec_stable in Hseen.
        split; [tauto|]. intros [H'|[Hk [<-|H']]]; tauto.
Qed.

Lemma dedup_parties_snoc (ps : list value) (p : value) (out : list value) (key : string) :
  _dedup_parties ps = Ok out -> name_key p = Ok key ->
  ((key = EmptyString \/ exists q, q ∈ ps /\ name_key q = Ok key) ->
   _dedup_parties (ps ++ [p]) = Ok out) /\
  (key <> EmptyString -> (forall q, q ∈ ps -> name_key q <> Ok key) ->
   _dedup_parties (ps ++ [p]) = Ok (out ++ [p])).
Proof.
  unfold _dedup_parties. intros Hps Hkey.
  rewrite dedup_parties_loop_app.
  destruct (dedup_parties_loop (∅, []) ps) as [st|e] eqn:Hloop; simpl in Hps; [|discriminate].
  injection Hps as <-.
  pose proof (dedup_parties_seen ps _ _ key Hloop) as Hseen. simpl in Hseen.
  simpl. unfold dedup_parties_step. rewrite Hkey. simpl.
  split.
  - intros Hdup.
    assert (Hc : negb (str_empty key) && bool_decide (key ∉ st.1) = false).
    { destruct Hdup as [->|Hdup]; [reflexivity|].
      destruct key as [|c key]; [reflexivity|]. simpl.
      apply bool_decide_eq_false. intros Hout. apply Hout, Hseen. right.
      split; [discriminate|assumption]. }
    now rewrite Hc.
  - intros Hne Hfresh.
    assert (Hc : negb (str_empty key) && bool_decide (key ∉ st.1) = true).
    { apply andb_true_iff. split.
      - destruct key; [congruence|reflexivity].
      - apply bool_decide_eq_true. intros Hin.
        apply Hseen in Hin as [Hin|[_ [q [Hq Hk]]]]; [set_solver|].
        exact (Hfresh q Hq Hk). }
    now rewrite Hc.
Qed.

Lemma merge_single_non_empty_witness :
  let r := [("contract_type", VStr "nda"); ("governing_law", VStr EmptyString);
            ("non_compete", VBool false);
            ("parties", VList [VDict [("name", VStr "Acme")];
                               VDict [("name", VStr " acme")]])] in
  dict_wf r /\
  merge_json_objects [r] =
    Ok [("contract_type", VStr "nda");
        ("parties", VList [VDict [("name", VStr "Acme")]])].
Proof.
  intros r.
  assert (Hwf : dict_wf r) by (apply (bool_decide_unpack _); vm_compute; exact I).
  split; [exact Hwf|].
  rewrite (merge_single_non_empty r Hwf). vm_compute. reflexivity.
Defined.

(** C6: in the branch of the merge where the existing and the incoming
    value are both non-empty, when both are sequences the merge stores the
    concatenation of the two, deduplicated: an element is dropped exactly
    when an element before it has the same serialization by [json_dumps]
    (sorted keys), and the elements kept stay in their order; merging
    [tags: x, y] and [tags: y, z] gives [tags: x, y, z]. *)
Theorem merge_lists_concat_dedup (acc : dict) (k : string) (lo lv : list value) :
  dict_get acc k = Some (VList lo) -> lo <> [] -> lv <> [] ->
  merge_item acc (k, VList lv) = dict_set acc k (VList (_dedup_list (lo ++ lv))) /\
  _dedup_list [] = [] /\
  (forall l x,
      _dedup_list (l ++ [x]) =
      _dedup_list l ++ (if decide (json_dumps x ∈ json_dumps <$> l) then [] else [x])) /\
  merge_json_objects
    [[("tags", VList [VStr "x"; VStr "y"])]; [("tags", VList [VStr "y"; VStr "z"])]]
  = Ok [("tags", VList [VStr "x"; VStr "y"; VStr "z"])].
Proof.
  intros Hget Hlo Hlv. split; [|split; [|split]].
  - unfold merge_item. rewrite Hget.
    destruct lv; [congruence|]. destruct lo; [congruence|]. reflexivity.
  - apply dedup_list_nil.
  - apply dedup_list_snoc.
  - vm_compute. reflexivity.
Qed.

Lemma merge_lists_concat_dedup_witness :
  merge_item [("tags", VList [VStr "x"; VStr "y"])] ("tags", VList [VStr "y"; VStr "z"])
  = [("tags", VList [VStr "x"; VStr "y"; VStr "z"])].
Proof.
  destruct (merge_lists_concat_dedup
              [("tags", VList [VStr "x"; VStr "y"])] "tags"
              [VStr "x"; VStr "y"] [VStr "y"; VStr "z"]
              eq_refl ltac:(discriminate) ltac:(discriminate)) as [H _].
  rewrite H. vm_compute. reflexivity.
Defined.

(** C8: the final pass identifies a party by its name, trimmed and
    lower-cased, and the first occurrence wins.  A party that comes after
    [ps] is dropped when its key is empty or is the key of a party of [ps],
    and is appended otherwise; merging [Acme] and [ACME ] leaves one entry,
    the first. *)
Theorem dedup_parties_first_wins (ps : list value) (p : value)
    (out : list value) (key : string) :
  _dedup_parties ps = Ok out -> name_key p = Ok key ->
  (forall d s, p = VDict d -> dict_get d "name" = Some (VStr s) ->
               key = lower (strip s)) /\
  ((key = EmptyString \/ exists q, q ∈ ps /\ name_key q = Ok key) ->
   _dedup_parties (ps ++ [p]) = Ok out) /\
  (key <> EmptyString -> (forall q, q ∈ ps -> name_key q <> Ok key) ->
   _dedup_parties (ps ++ [p]) = Ok (out ++ [p])) /\
  merge_json_objects
    [[("parties", VList [VDict [("name", VStr "Acme")]])];
     [("parties", VList [VDict [("name", VStr "ACME ")]])]]
  = Ok [("parties", VList [VDict [("name", VStr "Acme")]])].
Proof.
  intros Hps Hkey.
  destruct (dedup_parties_snoc ps p out key Hps Hkey) as [Hdup Hnew].
  split; [|split; [|split]].
  - intros d s -> Hname. simpl in Hkey. rewrite Hname in Hkey. congruence.
  - exact Hdup.
  - exact Hnew.
  - vm_compute. reflexivity.
Qed.

Lemma dedup_parties_first_wins_witness :
  _dedup_parties [VDict [("name", VStr "Acme")]; VDict [("name", VStr "ACME ")]]
  = Ok [VDict [("name", VStr "Acme")]].
Proof.
  destruct (dedup_parties_first_wins
              [VDict [("name", VStr "Acme")]] (VDict [("name", VStr "ACME ")])
              [VDict [("name", VStr "Acme")]] "acme"
              ltac:(vm_compute; reflexivity) ltac:(vm_compute; reflexivity))
    as [_ [Hdup _]].
  apply Hdup. right. exists (VDict [("name", VStr "Acme")]).
  split; [apply elem_of_cons; left; reflexivity | vm_compute; reflexivity].
Defined.

(** ** The segmenter *)

Lemma str_app_cons (c : ascii) (a b : string) :
  String c a +:+ b = String c (a +:+ b).
Proof. reflexivity. Qed.

Lemma str_app_nil_r (s : string) : s +:+ EmptyString = s.
Proof.
  induction s as [|c s IH]; [reflexivity|].
  now rewrite str_app_cons, IH.
Qed.

Lemma str_app_assoc (a b c : string) : (a +:+ b) +:+ c = a +:+ (b +:+ c).
Proof.
  induction a as [|x a IH]; [reflexivity|].
  now rewrite !str_app_cons, IH.
Qed.

Lemma concat_str_app (l1 l2 : list string) :
  concat_str (l1 ++ l2) = concat_str l1 +:+ concat_str l2.
Proof.
  induction l1 as [|s l1 IH]; [reflexivity|].
  cbn [app concat_str]. now rewrite IH, str_app_assoc.
Qed.

Lemma str_take_add (a b : nat) (s : string) :
  str_take (a + b) s = str_take a s +:+ str_take b (str_drop a s).
Proof.
  revert s. induction a as [|a IH]; intros s.
  - reflexivity.
  - destruct s as [|c s].
    + now destruct b.
    + cbn [Nat.add str_take str_drop]. now rewrite IH, str_app_cons.
Qed.

Lemma str_take_all (n : nat) (s : string) :
  (String.length s <= n)%nat -> str_take n s = s.
Proof.
  revert s. induction n as [|n IH]; intros [|c s]; simpl; intros H; auto.
  - lia.
  - rewrite IH; auto. lia.
Qed.

(** The windows of [step] characters at 0, [step], ..., put together again,
    are a prefix of the text. *)
Lemma windows_concat (step n : nat) (s : string) :
  concat_str (map (fun j => str_take step (str_drop (j * step) s)) (seq 0 n))
  = str_take (n * step) s.
Proof.
  induction n as [|n IH].
  - reflexivity.
  - rewrite seq_S, map_app, concat_str_app, IH. simpl.
    rewrite str_app_nil_r.
    replace (step + n * step)%nat with (n * step + step)%nat by lia.
    now rewrite str_take_add.
Qed.

Lemma py_range_positive (stop step : Z) :
  0 < step ->
  py_range stop step =
  Ok (map (fun i => Z.of_nat i * step) (seq 0 (Z.to_nat ((stop + step - 1) / step)))).
Proof.
  intros H. unfold py_range.
  destruct (Z.eqb_spec step 0); [lia|].
  destruct (Z.ltb_spec step 0); [lia|]. reflexivity.
Qed.

Lemma char_chunks_round_trip (text : string) (max_tokens : Z) :
  0 < max_tokens ->
  exists chunks,
    char_chunks text max_tokens = Ok chunks /\
    concat_str chunks = text /\
    (text = EmptyString -> chunks = []).
Proof.
  intros Hpos. unfold char_chunks.
  set (step := max_tokens * 4).
  assert (Hstep : 0 < step) by (unfold step; lia).
  rewrite py_range_positive by assumption. simpl.
  eexists. split; [reflexivity|].
  set (n := Z.to_nat ((len text + step - 1) / step)).
  rewrite map_map.
  assert (Hslice : forall j : nat,
             slice text (Z.of_nat j * step) (Z.of_nat j * step + step)
             = str_take (Z.to_nat step) (str_drop (j * Z.to_nat step) text)).
  { intros j. unfold slice. f_equal; [f_equal; lia|]. f_equal.
    rewrite Z2Nat.inj_mul, Nat2Z.id by lia. reflexivity. }
  rewrite (map_ext _ _ Hslice).
  split.
  - rewrite windows_concat. apply str_take_all.
    assert (Hq : len text <= (len text + step - 1) / step * step).
    { pose proof (Z.div_mod (len text + step - 1) step ltac:(lia)) as Hdm.
      pose proof (Z.mod_pos_bound (len text + step - 1) step Hstep) as Hb.
      nia. }
    assert (Hq0 : 0 <= (len text + step - 1) / step).
    { apply Z.div_pos; unfold len; lia. }
    unfold n, len in *. nia.
  - intros ->. unfold n. change (len EmptyString) with 0.
    rewrite Z.div_small by lia. reflexivity.
Qed.

(** Without tiktoken every split with a positive budget is degraded. *)
Lemma approx_degraded (text : string) (max_tokens : Z) :
  0 < max_tokens -> degraded _Approx text max_tokens.
Proof.
  intros H. unfold degraded, token_chunks.
  now rewrite py_range_positive.
Qed.

(** C7: in degraded mode, for every text and every positive budget, the
    split returns chunks whose concatenation is the text, and no chunk at
    all for the empty text. *)
Theorem split_degraded_round_trip (enc : encoder) (T : string) (L : Z) :
  0 < L -> degraded enc T L ->
  exists chunks,
    split_by_tokens enc T L = Ok chunks /\
    concat_str chunks = T /\
    (T = EmptyString -> chunks = []).
Proof.
  intros HL Hdeg. unfold split_by_tokens. rewrite Hdeg.
  now apply char_chunks_round_trip.
Qed.

Lemma split_degraded_round_trip_witness :
  exists chunks,
    split_by_tokens _Approx "abcdefghijklmnopqrstuvwxyz" 2 = Ok chunks /\
    concat_str chunks = "abcdefghijklmnopqrstuvwxyz" /\
    ("abcdefghijklmnopqrstuvwxyz" = EmptyString -> chunks = []).
Proof.
  apply (split_degraded_round_trip _Approx "abcdefghijklmnopqrstuvwxyz" 2).
  - lia.
  - apply approx_degraded. lia.
Defined.

(** ** Construction of a typed record *)

Lemma bind_Ok {A B} (m : result A) (f : A -> result B) (b : B) :
  (x ← m; f x) = Ok b -> exists a, m = Ok a /\ f a = Ok b.
Proof. destruct m as [a|e]; simpl; [eauto|discriminate]. Qed.

Ltac bind_inv H :=
  let a := fresh "a" in
  let Ha := fresh "Ha" in
  apply bind_Ok in H as [a [Ha H]].

Lemma field_agree {A} (data data' : dict) (k : string)
    (validate : value -> result A) (default : result A) :
  dict_get data k = dict_get data' k ->
  field data k validate default = field data' k validate default.
Proof. unfold field. now intros ->. Qed.

Ltac known_field := apply list_elem_of_In; simpl; tauto.

Lemma construct_agree (cls : schema_cls) (data data' : dict) :
  (forall k, k ∈ fields cls -> dict_get data k = dict_get data' k) ->
  construct cls data = construct cls data'.
Proof.
  intros Hagree.
  assert (Hf : forall A k (validate : value -> result A) default,
             k ∈ fields cls ->
             field data k validate default = field data' k validate default).
  { intros A k validate default Hk. apply field_agree, Hagree, Hk. }
  unfold construct, construct_variant, opt_str, opt_bool.
  destruct cls; rewrite !Hf by known_field; reflexivity.
Qed.

Lemma construct_custom_fields (cls : schema_cls) (data : dict) (r : GenericContractSchema) :
  construct cls data = Ok r ->
  custom_fields r = match dict_get data "custom_fields" with
                    | Some (VDict d) => d
                    | _ => []
                    end.
Proof.
  unfold construct. intros H.
  do 9 bind_inv H. injection H as <-. simpl.
  unfold field, validate_dict in *.
  destruct (dict_get data "custom_fields") as [[]|]; congruence.
Qed.

(** C3, as stated, fails.  The generic shape does not route an unknown key
    anywhere: [foo] is ignored and [custom_fields] stays empty.  Nor does
    construction succeed for every mapping that has an unknown key: the
    generic shape still needs its [contract_type]. *)
Lemma generic_shape_ignores_unknown_keys :
  _extract_single json_decode (js "{'contract_type': 'lease', 'foo': 'bar'}")
  = Ok {| contract_type := "lease"; parties := [];
          effective_date := None; termination_date := None;
          governing_law := None; renewal_terms := None;
          clauses := []; custom_fields := []; variant := GenericFields |} /\
  construct Generic [("contract_type", VStr "lease"); ("foo", VStr "bar")]
  = construct Generic [("contract_type", VStr "lease")] /\
  construct Generic [("foo", VStr "bar")] = Raise ValidationError.
Proof. split; [|split]; vm_compute; reflexivity. Qed.

(** C3, amended: keys that are not fields of the resolved shape never make
    the construction fail and are discarded by every shape, the generic one
    included.  Two mappings that agree on the fields of the shape are
    constructed alike (the same record, or the same failure), and
    [custom_fields] of the record is the mapping given under the key
    [custom_fields], empty when there is none. *)
Theorem construct_ignores_unknown_keys (cls : schema_cls) (data data' : dict) :
  (forall k, k ∈ fields cls -> dict_get data k = dict_get data' k) ->
  construct cls data = construct cls data' /\
  (forall r, construct cls data = Ok r ->
             custom_fields r = match dict_get data' "custom_fields" with
                               | Some (VDict d) => d
                               | _ => []
                               end).
Proof.
  intros Hagree. split; [now apply construct_agree|].
  intros r Hr. rewrite <- (Hagree "custom_fields").
  - now apply construct_custom_fields with (cls := cls).
  - unfold fields. apply elem_of_app. left. known_field.
Qed.

Lemma construct_ignores_unknown_keys_witness :
  construct Generic [("contract_type", VStr "lease"); ("foo", VStr "bar")]
  = construct Generic [("contract_type", VStr "lease")] /\
  (forall r,
      construct Generic [("contract_type", VStr "lease"); ("foo", VStr "bar")] = Ok r ->
      custom_fields r = []).
Proof.
  apply (construct_ignores_unknown_keys Generic
           [("contract_type", VStr "lease"); ("foo", VStr "bar")]
           [("contract_type", VStr "lease")]).
  intros k Hk. apply list_elem_of_In in Hk. simpl in Hk.
  destruct Hk as [<-|[<-|[<-|[<-|[<-|[<-|[<-|[<-|[]]]]]]]]]; reflexivity.
Defined.

(** ** The reference decoder never runs out of fuel *)

Lemma skip_ws_length (s : string) :
  (String.length (skip_ws s) <= String.length s)%nat.
Proof.
  induction s as [|c s IH]; simpl; [lia|].
  destruct (is_json_ws c); simpl; lia.
Qed.

Lemma eat_length (c : ascii) (s r : string) :
  eat c s = Some r -> String.length s = S (String.length r).
Proof.
  destruct s as [|x s]; simpl; [discriminate|].
  destruct (Ascii.eqb x c); [|discriminate]. now intros [= ->].
Qed.

Lemma strip_prefix_length (p s r : string) :
  strip_prefix p s = Some r ->
  String.length s = (String.length p + String.length r)%nat.
Proof.
  revert s. induction p as [|a p IH]; intros s; simpl.
  - now intros [= ->].
  - destruct s as [|b s]; [discriminate|].
    destruct (Ascii.eqb a b); [|discriminate].
    intros H. apply IH in H. simpl. lia.
Qed.

Lemma scan_digits_length (acc : Z) (s : string) :
  (String.length (scan_digits acc s).2 <= String.length s)%nat.
Proof.
  revert acc. induction s as [|c s IH]; intros acc; simpl; [lia|].
  destruct (is_digit c); simpl; [|lia].
  specialize (IH (10 * acc + (code c - 48))). lia.
Qed.

Lemma scan_int_length (s : string) (n : Z) (r : string) :
  scan_int s = Some (n, r) -> (String.length r < String.length s)%nat.
Proof.
  unfold scan_int.
  assert (Hhead : forall (neg : bool) (s1 : string),
             match s1 with
             | String c r0 =>
                 if Ascii.eqb c "0" then Some (0, r0)
                 else if in_range 49 57 c then
                   let '(n0, r') := scan_digits (code c - 48) r0 in
                   Some (if neg then - n0 else n0, r')
                 else None
             | EmptyString => None
             end = Some (n, r) ->
             (String.length r < String.length s1)%nat).
  { intros neg [|c r0]; [discriminate|].
    destruct (Ascii.eqb c "0").
    - intros [= <- <-]. simpl. lia.
    - destruct (in_range 49 57 c); [|discriminate].
      pose proof (scan_digits_length (code c - 48) r0) as Hd.
      destruct (scan_digits (code c - 48) r0) as [n0 r'].
      intros [= <- <-]. simpl in *. lia. }
  destruct (eat "-" s) as [r0|] eqn:E.
  - intros H. apply (Hhead true) in H. apply eat_length in E. lia.
  - apply (Hhead false).
Qed.

Lemma scan_atom_length (s : string) (v : value) (r : string) :
  scan_atom s = Parsed v r -> (String.length r < String.length s)%nat.
Proof.
  unfold scan_atom.
  destruct (strip_prefix "null" s) as [r0|] eqn:E1.
  { intros [= <- <-]. apply strip_prefix_length in E1. simpl in E1. lia. }
  destruct (strip_prefix "true" s) as [r0|] eqn:E2.
  { intros [= <- <-]. apply strip_prefix_length in E2. simpl in E2. lia. }
  destruct (strip_prefix "false" s) as [r0|] eqn:E3.
  { intros [= <- <-]. apply strip_prefix_length in E3. simpl in E3. lia. }
  destruct (scan_int s) as [[n r0]|] eqn:E4.
  - destruct (float_ahead r0); [discriminate|].
    intros [= <- <-]. now apply scan_int_length in E4.
  - destruct (_ || _); discriminate.
Qed.

Lemma scan_atom_fuel (s : string) : scan_atom s <> NoFuel.
Proof.
  unfold scan_atom.
  destruct (strip_prefix "null" s), (strip_prefix "true" s),
    (strip_prefix "false" s); try discriminate.
  destruct (scan_int s) as [[n r0]|].
  - destruct (float_ahead r0); discriminate.
  - destruct (_ || _); discriminate.
Qed.

Lemma parse_cons_Parsed (c : ascii) (p : parse string) (x r : string) :
  parse_cons c p = Parsed x r -> exists x', p = Parsed x' r.
Proof. destruct p; simpl; try discriminate. intros [= <- <-]. eauto. Qed.

Lemma parse_cons_fuel (c : ascii) (p : parse string) :
  parse_cons c p = NoFuel -> p = NoFuel.
Proof. now destruct p. Qed.

Lemma scan_string_spec (n : nat) (s : string) :
  (String.length s <= n)%nat ->
  scan_string s <> NoFuel /\
  (forall x r, scan_string s = Parsed x r ->
               (String.length r < String.length s)%nat).
Proof.
  revert s. induction n as [|n IH]; intros s Hn.
  - destruct s; [|simpl in Hn; lia]. simpl. split; [discriminate|discriminate].
  - destruct s as [|c s']; [simpl; split; discriminate|].
    simpl in Hn. simpl scan_string.
    destruct (Ascii.eqb c dquote).
    { split; [discriminate|]. intros x r [= <- <-]. simpl. lia. }
    destruct (Ascii.eqb c backslash).
    + destruct s' as [|e s'']; [split; discriminate|].
      simpl in Hn.
      destruct (Ascii.eqb e "u").
      * destruct s'' as [|h1 [|h2 [|h3 [|h4 rest]]]]; try (split; discriminate).
        simpl in Hn.
        destruct (hex_val h1) as [a|], (hex_val h2) as [b|],
          (hex_val h3) as [c1|], (hex_val h4) as [d|]; try (split; discriminate).
        destruct ((a =? 0) && (b =? 0)); [|split; discriminate].
        destruct (IH rest ltac:(lia)) as [Hf Hl].
        split.
        -- intros H. now apply parse_cons_fuel in H.
        -- intros x r H. apply parse_cons_Parsed in H as [x' H].
           apply Hl in H. simpl. lia.
      * destruct (unescape e) as [x0|]; [|split; discriminate].
        destruct (IH s'' ltac:(lia)) as [Hf Hl].
        split.
        -- intros H. now apply parse_cons_fuel in H.
        -- intros x r H. apply parse_cons_Parsed in H as [x' H].
           apply Hl in H. simpl. lia.
    + destruct (code c <? 32); [split; discriminate|].
      destruct (IH s' ltac:(lia)) as [Hf Hl].
      split.
      * intros H. now apply parse_cons_fuel in H.
      * intros x r H. apply parse_cons_Parsed in H as [x' H].
        apply Hl in H. simpl. lia.
Qed.

Lemma scan_string_fuel (s : string) : scan_string s <> NoFuel.
Proof. now apply (scan_string_spec (String.length s) s). Qed.

Lemma scan_string_length (s x r : string) :
  scan_string s = Parsed x r -> (String.length r < String.length s)%nat.
Proof. now apply (scan_string_spec (String.length s) s). Qed.

Ltac lengths :=
  repeat match goal with
         | H : eat _ _ = Some _ |- _ => apply eat_length in H
         | H : scan_string _ = Parsed _ _ |- _ => apply scan_string_length in H
         | H : scan_atom _ = Parsed _ _ |- _ => apply scan_atom_length in H
         end;
  repeat match goal with
         | |- context [skip_ws ?s] =>
             lazymatch goal with
             | _ : (String.length (skip_ws s) <= String.length s)%nat |- _ => fail
             | _ => pose proof (skip_ws_length s)
             end
         | _ : context [skip_ws ?s] |- _ =>
             lazymatch goal with
             | _ : (String.length (skip_ws s) <= String.length s)%nat |- _ => fail
             | _ => pose proof (skip_ws_length s)
             end
         end;
  simpl String.length in *; try lia.

(** With fuel above twice the length of the text, the three parsers end
    without [NoFuel]; and what they parse, they consume. *)
Lemma parse_fuel_enough (fuel : nat) :
  (forall s, (2 * String.length s + 1 <= fuel)%nat -> parse_value fuel s <> NoFuel) /\
  (forall s v r, parse_value fuel s = Parsed v r ->
                 (String.length r < String.length s)%nat) /\
  (forall acc s, (2 * String.length s + 2 <= fuel)%nat ->
                 parse_elements fuel acc s <> NoFuel) /\
  (forall acc s v r, parse_elements fuel acc s = Parsed v r ->
                     (String.length r < String.length s)%nat) /\
  (forall acc s, (2 * String.length s + 2 <= fuel)%nat ->
                 parse_members fuel acc s <> NoFuel) /\
  (forall acc s v r, parse_members fuel acc s = Parsed v r ->
                     (String.length r < String.length s)%nat).
Proof.
  induction fuel as [|fuel (IHv & IHvl & IHe & IHel & IHm & IHml)].
  { repeat split; intros; simpl in *; try lia; discriminate. }
  split; [|split; [|split; [|split; [|split]]]].
  - (* parse_value, fuel *)
    intros s Hf. simpl.
    destruct s as [|c s']; [discriminate|].
    destruct (Ascii.eqb c dquote).
    { pose proof (scan_string_fuel s').
      destruct (scan_string s'); congruence. }
    destruct (Ascii.eqb c "{").
    { destruct (eat "}" (skip_ws s')); [discriminate|]. apply IHm. lengths. }
    destruct (Ascii.eqb c "[").
    { destruct (eat "]" (skip_ws s')); [discriminate|]. apply IHe. lengths. }
    apply scan_atom_fuel.
  - (* parse_value, length *)
    intros s v r. simpl.
    destruct s as [|c s']; [discriminate|].
    destruct (Ascii.eqb c dquote).
    { destruct (scan_string s') eqn:E; try discriminate.
      intros [= <- <-]. lengths. }
    destruct (Ascii.eqb c "{").
    { destruct (eat "}" (skip_ws s')) eqn:E.
      - intros [= <- <-]. lengths.
      - intros H. apply IHml in H. lengths. }
    destruct (Ascii.eqb c "[").
    { destruct (eat "]" (skip_ws s')) eqn:E.
      - intros [= <- <-]. lengths.
      - intros H. apply IHel in H. lengths. }
    intros H. lengths.
  - (* parse_elements, fuel *)
    intros acc s Hf. simpl.
    destruct (parse_value fuel s) as [v r| | |] eqn:Ev; try discriminate.
    + apply IHvl in Ev.
      destruct (eat "]" (skip_ws r)) eqn:E1; [discriminate|].
      destruct (eat "," (skip_ws r)) eqn:E2; [|discriminate].
      apply IHe. lengths.
    + exfalso. revert Ev. apply IHv. lia.
  - (* parse_elements, length *)
    intros acc s v r. simpl.
    destruct (parse_value fuel s) as [v0 r0| | |] eqn:Ev; try discriminate.
    apply IHvl in Ev.
    destruct (eat "]" (skip_ws r0)) eqn:E1.
    + intros [= <- <-]. lengths.
    + destruct (eat "," (skip_ws r0)) eqn:E2; [|discriminate].
      intros H. apply IHel in H. lengths.
  - (* parse_members, fuel *)
    intros acc s Hf. simpl.
    destruct (eat dquote s) as [s'|] eqn:E0; [|discriminate].
    pose proof (scan_string_fuel s').
    destruct (scan_string s') as [k r| | |] eqn:Es; try congruence.
    destruct (eat ":" (skip_ws r)) as [r1|] eqn:E1; [|discriminate].
    destruct (parse_value fuel (skip_ws r1)) as [v r2| | |] eqn:Ev; try discriminate.
    + apply IHvl in Ev.
      destruct (eat "}" (skip_ws r2)) eqn:E2; [discriminate|].
      destruct (eat "," (skip_ws r2)) eqn:E3; [|discriminate].
      apply IHm. lengths.
    + exfalso. revert Ev. apply IHv. lengths.
  - (* parse_members, length *)
    intros acc s v r. simpl.
    destruct (eat dquote s) as [s'|] eqn:E0; [|discriminate].
    destruct (scan_string s') as [k r0| | |] eqn:Es; try discriminate.
    destruct (eat ":" (skip_ws r0)) as [r1|] eqn:E1; [|discriminate].
    destruct (parse_value fuel (skip_ws r1)) as [v0 r2| | |] eqn:Ev; try discriminate.
    apply IHvl in Ev.
    destruct (eat "}" (skip_ws r2)) eqn:E2.
    + intros [= <- <-]. lengths.
    + destruct (eat "," (skip_ws r2)) eqn:E3; [|discriminate].
      intros H. apply IHml in H. lengths.
Qed.

(** The decoder is total: a text is parsed, rejected, or outside the
    fragment. *)
Lemma parse_document_fuel (s : string) : parse_document s <> NoFuel.
Proof.
  unfold parse_document.
  destruct (parse_fuel_enough (2 * String.length s + 2)) as (Hv & _).
  specialize (Hv (skip_ws s)). pose proof (skip_ws_length s).
  destruct (parse_value _ _) as [v r| | |].
  - destruct (skip_ws r); discriminate.
  - discriminate.
  - discriminate.
  - exfalso. apply Hv; [lia|reflexivity].
Qed.

(** ** Repair and fallback *)

Lemma fix_and_load_None (json_loads : string -> option value) (blob : string) :
  json_loads blob = None -> json_loads (clean blob) = None ->
  fix_and_load json_loads blob = VNone.
Proof. intros H1 H2. unfold fix_and_load. now rewrite H1, H2. Qed.

(** C4: when the answer of the oracle cannot be parsed, neither as it is
    extracted nor after the repair heuristics, the single-chunk extraction
    returns (it does not raise) the fallback record, whose [contract_type]
    is [unknown] and whose [parties] are empty. *)
Theorem extract_single_fallback (json_loads : string -> option value) (raw : string) :
  json_loads (json_blob_of raw) = None ->
  json_loads (clean (json_blob_of raw)) = None ->
  exists r,
    _extract_single json_loads raw = Ok r /\
    contract_type r = "unknown" /\ parties r = [] /\
    construct Generic [("contract_type", VStr "unknown"); ("parties", VList [])] = Ok r.
Proof.
  intros H1 H2. unfold _extract_single.
  rewrite (fix_and_load_None json_loads _ H1 H2).
  eexists. repeat split; reflexivity.
Qed.

Lemma extract_single_fallback_witness :
  exists r,
    _extract_single json_decode "I could not find {any contract} in this text." = Ok r /\
    contract_type r = "unknown" /\ parties r = [] /\
    construct Generic [("contract_type", VStr "unknown"); ("parties", VList [])] = Ok r.
Proof.
  apply (extract_single_fallback json_decode
           "I could not find {any contract} in this text.");
    vm_compute; reflexivity.
Defined.

(** C10, as stated, fails: on the text [null] the direct parse succeeds,
    and [fix_and_load] returns [None] all the same, the value parsed. *)
Lemma fix_and_load_null :
  parse_document "null" = Parsed VNone EmptyString /\
  json_decode "null" <> None /\
  fix_and_load json_decode "null" = VNone.
Proof. split; [|split]; [vm_compute; reflexivity|discriminate|vm_compute; reflexivity]. Qed.

(** C10, amended: [fix_and_load] returns whatever value a successful parse
    produces, of the text first and of the cleaned text otherwise, a list
    for [[1, 2]] and a number for [3]; it returns [None] exactly when both
    parses fail or the parse that succeeds produces [null]. *)
Theorem fix_and_load_returns_parsed (json_loads : string -> option value) (blob : string) :
  (forall v, json_loads blob = Some v -> fix_and_load json_loads blob = v) /\
  (forall v, json_loads blob = None -> json_loads (clean blob) = Some v ->
             fix_and_load json_loads blob = v) /\
  (fix_and_load json_loads blob = VNone <->
   (json_loads blob = None /\ json_loads (clean blob) = None) \/
   json_loads blob = Some VNone \/
   (json_loads blob = None /\ json_loads (clean blob) = Some VNone)) /\
  fix_and_load json_decode "[1, 2]" = VList [VInt 1; VInt 2] /\
  fix_and_load json_decode "3" = VInt 3.
Proof.
  unfold fix_and_load.
  split; [|split; [|split; [|split]]].
  - now intros v ->.
  - now intros v -> ->.
  - destruct (json_loads blob) as [v|].
    + split.
      * intros ->. auto.
      * intros [[H _]|[H|[H _]]]; congruence.
    + destruct (json_loads (clean blob)) as [v|].
      * split.
        -- intros ->. auto.
        -- intros [[_ H]|[H|[_ H]]]; congruence.
      * split; auto.
  - vm_compute. reflexivity.
  - vm_compute. reflexivity.
Qed.

Lemma fix_and_load_returns_parsed_witness :
  fix_and_load json_decode (js "```json [{'a': 1}, 'b'] ```")
  = VList [VDict [("a", VInt 1)]; VStr "b"].
Proof.
  destruct (fix_and_load_returns_parsed json_decode (js "```json [{'a': 1}, 'b'] ```"))
    as [_ [H _]].
  apply H; vm_compute; reflexivity.
Defined.

(** C2: the repair does not remove a trailing comma.  The comma and the
    bracket after it are replaced by a backslash and the digit 1, the
    cleaned text does not parse, and [fix_and_load] returns [None] where
    the claim has the object with the one pair [a: 1] -- which is what the
    text parses to once the comma is removed. *)
Theorem trailing_comma_not_repaired :
  _remove_trailing_commas (js "{'a':1,}") = js "{'a':1\1" /\
  clean (js "{'a':1,}") = js "{'a':1\1" /\
  parse_document (js "{'a':1,}") = SyntaxError /\
  parse_document (js "{'a':1\1") = SyntaxError /\
  fix_and_load json_decode (js "{'a':1,}") = VNone /\
  json_decode (js "{'a':1}") = Some (VDict [("a", VInt 1)]).
Proof. repeat split; vm_compute; reflexivity. Qed.

(** * Further properties *)

(** * Further properties *)

(** ** [_dedup_list] *)

Lemma dedup_list_keys (l : list value) (key : string) :
  key ∈ json_dumps <$> _dedup_list l <-> key ∈ json_dumps <$> l.
Proof.
  induction l as [|x l IH] using rev_ind; [reflexivity|].
  rewrite dedup_list_snoc, !fmap_app, !elem_of_app, IH.
  destruct (decide (json_dumps x ∈ json_dumps <$> l)) as [Hin|Hout]; simpl.
  - rewrite elem_of_nil, list_elem_of_singleton.
    split; [tauto|]. intros [H| ->]; auto.
  - reflexivity.
Qed.

Lemma dedup_list_sublist (l : list value) : _dedup_list l `sublist_of` l.
Proof.
  induction l as [|x l IH] using rev_ind; [constructor|].
  rewrite dedup_list_snoc. apply sublist_app; [exact IH|].
  destruct (decide _); [apply sublist_nil_l | reflexivity].
Qed.

Lemma dedup_list_NoDup (l : list value) : NoDup (json_dumps <$> _dedup_list l).
Proof.
  induction l as [|x l IH] using rev_ind; [constructor|].
  rewrite dedup_list_snoc, fmap_app.
  destruct (decide (json_dumps x ∈ json_dumps <$> l)) as [Hin|Hout]; simpl.
  - now rewrite app_nil_r.
  - apply NoDup_app. split; [exact IH|]. split; [|apply NoDup_singleton].
    intros key Hkey. rewrite list_elem_of_singleton. intros ->.
    apply Hout. now apply dedup_list_keys.
Qed.

Lemma dedup_list_fixed (l : list value) :
  NoDup (json_dumps <$> l) -> _dedup_list l = l.
Proof.
  induction l as [|x l IH] using rev_ind; [reflexivity|].
  rewrite fmap_app. intros Hnd. apply NoDup_app in Hnd as (Hl & Hx & _).
  rewrite dedup_list_snoc, IH by assumption.
  destruct (decide (json_dumps x ∈ json_dumps <$> l)) as [Hin|Hout]; [|reflexivity].
  exfalso. apply (Hx _ Hin). simpl. apply elem_of_cons. now left.
Qed.

Lemma dedup_list_not_nil (l : list value) : l <> [] -> _dedup_list l <> [].
Proof.
  intros Hl Hd. destruct l as [|x l]; [congruence|].
  assert (Hx : json_dumps x ∈ json_dumps <$> _dedup_list (x :: l)).
  { apply dedup_list_keys. simpl. apply elem_of_cons. now left. }
  rewrite Hd in Hx. now apply elem_of_nil in Hx.
Qed.

(** X1: what [_dedup_list] returns is a sublist of its argument in which no
    two elements have the same serialization, every element of the argument
    has its serialization represented, and a second pass changes nothing. *)
Theorem dedup_list_spec (l : list value) :
  _dedup_list l `sublist_of` l /\
  NoDup (json_dumps <$> _dedup_list l) /\
  (forall x, x ∈ l -> json_dumps x ∈ json_dumps <$> _dedup_list l) /\
  _dedup_list (_dedup_list l) = _dedup_list l.
Proof.
  split; [apply dedup_list_sublist|]. split; [apply dedup_list_NoDup|]. split.
  - intros x Hx. apply dedup_list_keys. now apply list_elem_of_fmap_2.
  - apply dedup_list_fixed, dedup_list_NoDup.
Qed.

(** ** The dedup loops of parties and clauses *)

Section DedupByFacts.

Context {K : Type} `{Countable K}.
Variable key_of : value -> result K.
Variable keep : K -> bool.

Local Abbreviation step := (dedup_by_step key_of keep).
Local Abbreviation loop := (dedup_by_loop key_of keep).

Lemma dedup_by_loop_app (l1 l2 : list value) (st : gset K * list value) :
  dedup_by_loop key_of keep st (l1 ++ l2) =
  (st' ← dedup_by_loop key_of keep st l1; dedup_by_loop key_of keep st' l2).
Proof.
  revert st. induction l1 as [|x l1 IH]; intros st; simpl; auto.
  destruct (step st x) as [st'|e]; simpl; auto.
Qed.

Lemma dedup_by_step_Ok (st st' : gset K * list value) (x : value) :
  step st x = Ok st' ->
  exists k, key_of x = Ok k /\
    ((keep k = true /\ (k ∉ st.1) /\ st' = ({[k]} ∪ st.1, st.2 ++ [x])) \/
     ((keep k = false \/ k ∈ st.1) /\ st' = st)).
Proof.
  unfold dedup_by_step. destruct (key_of x) as [k|e]; simpl; [|discriminate].
  intros Hst. exists k. split; [reflexivity|].
  destruct (keep k); simpl in Hst.
  - destruct (bool_decide (k ∉ st.1)) eqn:Hd; injection Hst as <-.
    + apply bool_decide_eq_true in Hd. left. auto.
    + apply bool_decide_eq_false in Hd. apply dec_stable in Hd. right. auto.
  - injection Hst as <-. right. auto.
Qed.

Lemma dedup_by_loop_seen (xs : list value) (st st' : gset K * list value) (k : K) :
  loop st xs = Ok st' ->
  k ∈ st'.1 <->
  k ∈ st.1 \/ (keep k = true /\ exists q, q ∈ xs /\ key_of q = Ok k).
Proof.
  revert st. induction xs as [|x xs IH]; intros st Hloop; simpl in Hloop.
  - injection Hloop as <-. split; auto.
    intros [Hk|[_ [q [Hq _]]]]; auto. now apply elem_of_nil in Hq.
  - destruct (step st x) as [st1|e] eqn:Hstep; simpl in Hloop; [|discriminate].
    rewrite (IH _ Hloop). clear IH Hloop.
    apply dedup_by_step_Ok in Hstep as [kx [Hkx Hcase]].
    assert (Hq : (exists q, q ∈ x :: xs /\ key_of q = Ok k) <->
                 kx = k \/ exists q, q ∈ xs /\ key_of q = Ok k).
    { split.
      - intros [q [Hq Hk]]. apply elem_of_cons in Hq as [->|Hq]; [left; congruence|eauto].
      - intros [<-|[q [Hq Hk]]]; [exists x|exists q]; rewrite elem_of_cons; auto. }
    rewrite Hq. clear Hq.
    destruct Hcase as [(Hkeep & Hnew & ->)|([Hdrop|Hold] & ->)]; simpl.
    + rewrite elem_of_union, elem_of_singleton.
      split; [intros [[->|Hk]|Hk]; tauto | intros [Hk|[Hk [<-|Hq]]]; tauto].
    + split; [tauto|]. intros [Hk|[Hk [<-|Hq]]]; [tauto|congruence|tauto].
    + split; [tauto|]. intros [Hk|[Hk [<-|Hq]]]; tauto.
Qed.

Lemma dedup_by_loop_out (xs : list value) (st st' : gset K * list value) :
  loop st xs = Ok st' ->
  exists added, st'.2 = st.2 ++ added /\ added `sublist_of` xs.
Proof.
  revert st. induction xs as [|x xs IH]; intros st Hloop; simpl in Hloop.
  - injection Hloop as <-. exists []. now rewrite app_nil_r.
  - destruct (step st x) as [st1|e] eqn:Hstep; simpl in Hloop; [|discriminate].
    apply IH in Hloop as [added [Hout Hsub]].
    apply dedup_by_step_Ok in Hstep as [kx [_ [(_ & _ & ->)|(_ & ->)]]]; simpl in Hout.
    + exists (x :: added). rewrite Hout, <- app_assoc. split; [reflexivity|].
      now constructor.
    + exists added. split; [assumption|]. now constructor.
Qed.

(** The entry that comes last: dropped or appended. *)
Lemma dedup_by_snoc (xs : list value) (x : value) (out : list value) (k : K) :
  dedup_by key_of keep xs = Ok out -> key_of x = Ok k ->
  (dedup_by key_of keep (xs ++ [x]) = Ok out /\
   (keep k = false \/ exists q, q ∈ xs /\ key_of q = Ok k)) \/
  (dedup_by key_of keep (xs ++ [x]) = Ok (out ++ [x]) /\
   keep k = true /\ forall q, q ∈ xs -> key_of q <> Ok k).
Proof.
  unfold dedup_by. intros Hxs Hk. rewrite dedup_by_loop_app.
  destruct (loop (∅, []) xs) as [st|e] eqn:Hloop; simpl in Hxs; [|discriminate].
  injection Hxs as <-.
  pose proof (dedup_by_loop_seen xs _ _ k Hloop) as Hseen. simpl in Hseen.
  simpl. destruct (step st x) as [st'|e] eqn:Hstep.
  - apply dedup_by_step_Ok in Hstep as [k' [Hk' Hcase]].
    assert (k' = k) by congruence. subst k'.
    destruct Hcase as [(Hkeep & Hnew & ->)|([Hdrop|Hold] & ->)]; simpl.
    + right. split; [reflexivity|]. split; [assumption|].
      intros q Hq Hqk. apply Hnew, Hseen. right. eauto.
    + left. auto.
    + left. split; [reflexivity|]. apply Hseen in Hold as [Hold|[_ Hold]]; [set_solver|auto].
  - unfold dedup_by_step in Hstep. rewrite Hk in Hstep. simpl in Hstep.
    destruct (keep k && bool_decide (k ∉ st.1)); discriminate.
Qed.

Lemma dedup_by_snoc_inv (xs : list value) (x : value) (out' : list value) :
  dedup_by key_of keep (xs ++ [x]) = Ok out' ->
  exists out k, dedup_by key_of keep xs = Ok out /\ key_of x = Ok k.
Proof.
  unfold dedup_by. rewrite dedup_by_loop_app.
  destruct (loop (∅, []) xs) as [st|e]; simpl; [|discriminate].
  destruct (step st x) as [st'|e] eqn:Hstep; simpl; [|discriminate].
  apply dedup_by_step_Ok in Hstep as [k [Hk _]]. eauto.
Qed.

Lemma keys_of_elem (out : list value) (ks : list K) (k : K) :
  Forall2 (fun p kp => key_of p = Ok kp) out ks -> k ∈ ks ->
  exists p, p ∈ out /\ key_of p = Ok k.
Proof.
  induction 1 as [|p kp out ks Hp _ IH]; intros Hk.
  - now apply elem_of_nil in Hk.
  - apply elem_of_cons in Hk as [->|Hk].
    + exists p. split; [apply elem_of_cons; now left|assumption].
    + destruct (IH Hk) as [q [Hq Hqk]]. exists q.
      split; [apply elem_of_cons; now right|assumption].
Qed.

Lemma dedup_by_spec (xs out : list value) :
  dedup_by key_of keep xs = Ok out ->
  out `sublist_of` xs /\
  exists ks,
    Forall2 (fun p k => key_of p = Ok k) out ks /\
    NoDup ks /\
    Forall (fun k => keep k = true) ks /\
    (forall p k, p ∈ xs -> key_of p = Ok k -> keep k = true -> k ∈ ks).
Proof.
  revert out. induction xs as [|x xs IH] using rev_ind; intros out' Hout'.
  - injection Hout' as <-. split; [constructor|]. exists [].
    repeat split; try constructor.
    intros p k Hp. now apply elem_of_nil in Hp.
  - destruct (dedup_by_snoc_inv _ _ _ Hout') as (out & k & Hxs & Hk).
    destruct (IH _ Hxs) as (Hsub & ks & Hkeys & Hnd & Hkeep & Hcover).
    destruct (dedup_by_snoc xs x out k Hxs Hk) as [[Heq Hwhy]|(Heq & Hkk & Hfresh)];
      rewrite Heq in Hout'; injection Hout' as <-.
    + split; [now apply sublist_inserts_r|]. exists ks.
      repeat split; auto.
      intros p kp Hp Hkp Hkeep'. apply elem_of_app in Hp as [Hp|Hp]; [eauto|].
      apply list_elem_of_singleton in Hp as ->.
      assert (kp = k) by congruence. subst kp.
      destruct Hwhy as [Hdrop|[q [Hq Hqk]]]; [congruence|eauto].
    + split; [now apply sublist_app|]. exists (ks ++ [k]).
      split; [apply Forall2_app; [assumption|now constructor]|].
      split; [|split].
      * apply NoDup_app. split; [assumption|]. split; [|apply NoDup_singleton].
        intros k' Hk' Heqk. apply list_elem_of_singleton in Heqk as ->.
        destruct (keys_of_elem _ _ _ Hkeys Hk') as [p [Hp Hpk]].
        apply (Hfresh p); [|assumption]. eapply elem_of_sublist; eauto.
      * apply Forall_app. split; [assumption|now constructor].
      * intros p kp Hp Hkp Hkeep'. apply elem_of_app.
        apply elem_of_app in Hp as [Hp|Hp]; [left; eauto|].
        apply list_elem_of_singleton in Hp as ->. right.
        apply list_elem_of_singleton. congruence.
Qed.

(** A list whose keys are distinct and all to keep passes unchanged. *)
Lemma dedup_by_fixed (out : list value) (ks : list K) :
  Forall2 (fun p k => key_of p = Ok k) out ks ->
  NoDup ks -> Forall (fun k => keep k = true) ks ->
  dedup_by key_of keep out = Ok out.
Proof.
  revert ks. induction out as [|x out IH] using rev_ind; intros ks Hkeys Hnd Hkeep.
  - reflexivity.
  - apply Forall2_app_inv_l in Hkeys as (ks1 & ks2 & Hk1 & Hk2 & ->).
    inversion Hk2 as [|? k ? ? Hxk Hnil]; subst. inversion Hnil; subst.
    apply NoDup_app in Hnd as (Hnd1 & Hdisj & _).
    apply Forall_app in Hkeep as [Hkeep1 Hkeep2].
    specialize (IH ks1 Hk1 Hnd1 Hkeep1).
    destruct (dedup_by_snoc out x out k IH Hxk) as [[Heq Hwhy]|(Heq & _)]; [|exact Heq].
    exfalso. destruct Hwhy as [Hdrop|[q [Hq Hqk]]].
    + inversion Hkeep2; subst. congruence.
    + assert (Hin : k ∈ ks1).
      { clear -Hk1 Hq Hqk. induction Hk1 as [|p kp out ks1 Hp _ IHk].
        - now apply elem_of_nil in Hq.
        - apply elem_of_cons in Hq as [->|Hq].
          + assert (kp = k) by congruence. subst. apply elem_of_cons. now left.
          + apply elem_of_cons. right. auto. }
      apply (Hdisj _ Hin). apply elem_of_cons. now left.
Qed.

(** The loop ends well exactly when every key can be computed. *)
Lemma dedup_by_Ok (xs : list value) :
  (exists out, dedup_by key_of keep xs = Ok out) <->
  Forall (fun x => exists k, key_of x = Ok k) xs.
Proof.
  induction xs as [|x xs IH] using rev_ind.
  - split; [constructor|]. intros _. now exists [].
  - rewrite Forall_app, <- IH. split.
    + intros [out' Hout']. apply dedup_by_snoc_inv in Hout' as (out & k & Hxs & Hk).
      split; [eauto|]. constructor; [eauto|constructor].
    + intros [[out Hxs] Hx]. inversion Hx as [|? ? [k Hk] _]; subst.
      destruct (dedup_by_snoc xs x out k Hxs Hk) as [[Heq _]|[Heq _]]; eauto.
Qed.

(** The loop raises what the computation of a key raises. *)
Lemma dedup_by_Raise (xs : list value) (e : exn) :
  dedup_by key_of keep xs = Raise e -> exists x, x ∈ xs /\ key_of x = Raise e.
Proof.
  unfold dedup_by. generalize (∅ : gset K, [] : list value).
  induction xs as [|x xs IH]; intros st; simpl; [discriminate|].
  destruct (dedup_by_step key_of keep st x) as [st'|e'] eqn:Hstep; simpl.
  - intros Hr. apply IH in Hr as [q [Hq Hqe]]. exists q.
    split; [apply elem_of_cons; now right|assumption].
  - intros [= ->]. exists x. split; [apply elem_of_cons; now left|].
    unfold dedup_by_step in Hstep. destruct (key_of x) as [k|e']; simpl in Hstep.
    + destruct (keep k && bool_decide (k ∉ st.1)); discriminate.
    + congruence.
Qed.

End DedupByFacts.

Lemma dedup_parties_loop_by (ps : list value) (st : gset string * list value) :
  dedup_parties_loop st ps = dedup_by_loop name_key non_empty_key st ps.
Proof.
  revert st. induction ps as [|p ps IH]; intros st; simpl; [reflexivity|].
  change (dedup_by_step name_key non_empty_key st p) with (dedup_parties_step st p).
  destruct (dedup_parties_step st p); simpl; auto.
Qed.

Lemma dedup_parties_by (ps : list value) :
  _dedup_parties ps = dedup_by name_key non_empty_key ps.
Proof. unfold _dedup_parties, dedup_by. now rewrite dedup_parties_loop_by. Qed.

Lemma dedup_clauses_loop_by (cs : list value) (st : gset (string * bool) * list value) :
  dedup_clauses_loop st cs = dedup_by_loop clause_key any_key st cs.
Proof.
  revert st. induction cs as [|c cs IH]; intros st; simpl; [reflexivity|].
  change (dedup_by_step clause_key any_key st c) with (dedup_clauses_step st c).
  destruct (dedup_clauses_step st c); simpl; auto.
Qed.

Lemma dedup_clauses_by (cs : list value) :
  _dedup_clauses cs = dedup_by clause_key any_key cs.
Proof. unfold _dedup_clauses, dedup_by. now rewrite dedup_clauses_loop_by. Qed.

Lemma name_key_named (x : value) :
  (exists k, name_key x = Ok k) <-> named x = true.
Proof.
  unfold name_key, named. destruct x as [| | | | |d]; try (split; [intros [k Hk]|]; discriminate).
  destruct (dict_get d "name") as [[]|]; split; try discriminate; eauto;
    intros [k Hk]; discriminate.
Qed.

Lemma name_key_Raise (x : value) (e : exn) :
  name_key x = Raise e -> e = AttributeError /\ named x = false.
Proof.
  unfold name_key, named. destruct x as [| | | | |d]; try (intros [= <-]; auto).
  destruct (dict_get d "name") as [[]|]; try discriminate; intros [= <-]; auto.
Qed.

Lemma clause_key_named (x : value) :
  (exists k, clause_key x = Ok k) <-> named x = true.
Proof.
  rewrite <- name_key_named. unfold clause_key. split.
  - intros [k Hk]. destruct (name_key x) as [n|e]; [eauto|discriminate].
  - intros [n Hn]. rewrite Hn. simpl.
    destruct x; try discriminate. eauto.
Qed.

Lemma clause_key_Raise (x : value) (e : exn) :
  clause_key x = Raise e -> e = AttributeError /\ named x = false.
Proof.
  unfold clause_key. destruct (name_key x) as [n|e'] eqn:Hn; simpl.
  - destruct x; try discriminate; intros [= <-]; discriminate.
  - intros [= <-]. now apply name_key_Raise.
Qed.

(** X2: the parties kept by [_dedup_parties] are a sublist of its argument;
    their keys are non-empty and pairwise distinct; every non-empty key of
    the argument is the key of a party kept; and a second pass changes
    nothing. *)
Theorem dedup_parties_spec (ps out : list value) :
  _dedup_parties ps = Ok out ->
  out `sublist_of` ps /\
  (exists ks,
      Forall2 (fun p k => name_key p = Ok k) out ks /\
      NoDup ks /\ (EmptyString ∉ ks) /\
      (forall p k, p ∈ ps -> name_key p = Ok k -> k <> EmptyString -> k ∈ ks)) /\
  _dedup_parties out = Ok out.
Proof.
  rewrite !dedup_parties_by. intros Hout.
  destruct (dedup_by_spec name_key non_empty_key ps out Hout)
    as (Hsub & ks & Hkeys & Hnd & Hkeep & Hcover).
  split; [assumption|]. split.
  - exists ks. split; [assumption|]. split; [assumption|]. split.
    + intros Hin. rewrite Forall_forall in Hkeep. now apply Hkeep in Hin.
    + intros p k Hp Hk Hne. apply (Hcover p k Hp Hk).
      destruct k; [congruence|reflexivity].
  - rewrite ?dedup_parties_by. now apply dedup_by_fixed with (ks := ks).
Qed.

Lemma dedup_parties_spec_witness :
  [VDict [("name", VStr "Acme")]] `sublist_of`
    [VDict [("name", VStr "Acme")]; VDict [("name", VStr "ACME ")];
     VDict [("role", VStr "buyer")]] /\
  _dedup_parties [VDict [("name", VStr "Acme")]] = Ok [VDict [("name", VStr "Acme")]].
Proof.
  destruct (dedup_parties_spec
              [VDict [("name", VStr "Acme")]; VDict [("name", VStr "ACME ")];
               VDict [("role", VStr "buyer")]]
              [VDict [("name", VStr "Acme")]]
              ltac:(vm_compute; reflexivity)) as (Hsub & _ & Hfix).
  split; assumption.
Defined.

(** X3: the clause that comes last is dropped when a clause before it has
    the same key -- the name, trimmed and lower-cased, and the truth value
    of [present] -- and is appended otherwise.  Unlike a party, a clause
    with an empty or missing name is kept, and two clauses of one name
    whose [present] flags differ are both kept. *)
Theorem dedup_clauses_last (cs : list value) (c : value) (out : list value)
    (k : string * bool) :
  _dedup_clauses cs = Ok out -> clause_key c = Ok k ->
  ((exists q, q ∈ cs /\ clause_key q = Ok k) ->
   _dedup_clauses (cs ++ [c]) = Ok out) /\
  ((forall q, q ∈ cs -> clause_key q <> Ok k) ->
   _dedup_clauses (cs ++ [c]) = Ok (out ++ [c])).
Proof.
  rewrite !dedup_clauses_by. intros Hcs Hk.
  destruct (dedup_by_snoc clause_key any_key cs c out k Hcs Hk)
    as [[Heq Hwhy]|(Heq & _ & Hfresh)].
  - split; [now intros _|].
    intros Hnone. destruct Hwhy as [Hdrop|[q [Hq Hqk]]]; [discriminate|].
    now destruct (Hnone q Hq).
  - split; [|now intros _].
    intros [q [Hq Hqk]]. now destruct (Hfresh q Hq).
Qed.

Lemma dedup_clauses_last_witness :
  _dedup_clauses
    [VDict [("name", VStr "Indemnification"); ("present", VBool true)];
     VDict [("name", VStr "indemnification "); ("present", VBool false)]]
  = Ok [VDict [("name", VStr "Indemnification"); ("present", VBool true)];
        VDict [("name", VStr "indemnification "); ("present", VBool false)]].
Proof.
  destruct (dedup_clauses_last
              [VDict [("name", VStr "Indemnification"); ("present", VBool true)]]
              (VDict [("name", VStr "indemnification "); ("present", VBool false)])
              [VDict [("name", VStr "Indemnification"); ("present", VBool true)]]
              ("indemnification", false)
              ltac:(vm_compute; reflexivity) ltac:(vm_compute; reflexivity))
    as [_ Hnew].
  apply Hnew. intros q Hq. apply list_elem_of_singleton in Hq as ->.
  vm_compute. discriminate.
Defined.

(** X4: the clauses kept by [_dedup_clauses] are a sublist of its argument;
    their keys are pairwise distinct; every key of the argument is the key
    of a clause kept; and a second pass changes nothing. *)
Theorem dedup_clauses_spec (cs out : list value) :
  _dedup_clauses cs = Ok out ->
  out `sublist_of` cs /\
  (exists ks,
      Forall2 (fun c k => clause_key c = Ok k) out ks /\
      NoDup ks /\
      (forall c k, c ∈ cs -> clause_key c = Ok k -> k ∈ ks)) /\
  _dedup_clauses out = Ok out.
Proof.
  rewrite !dedup_clauses_by. intros Hout.
  destruct (dedup_by_spec clause_key any_key cs out Hout)
    as (Hsub & ks & Hkeys & Hnd & Hkeep & Hcover).
  split; [assumption|]. split.
  - exists ks. split; [assumption|]. split; [assumption|].
    intros c k Hc Hk. now apply (Hcover c k Hc Hk).
  - rewrite dedup_clauses_by. now apply dedup_by_fixed with (ks := ks).
Qed.

Lemma dedup_clauses_spec_witness :
  _dedup_clauses [VDict [("name", VStr "Term"); ("present", VInt 1)]]
  = Ok [VDict [("name", VStr "Term"); ("present", VInt 1)]].
Proof.
  destruct (dedup_clauses_spec
              [VDict [("name", VStr "Term"); ("present", VInt 1)];
               VDict [("name", VStr " TERM"); ("present", VStr "yes")]]
              [VDict [("name", VStr "Term"); ("present", VInt 1)]]
              ltac:(vm_compute; reflexivity)) as (_ & _ & Hfix).
  exact Hfix.
Defined.

(** X5: the two dedup loops raise [AttributeError], and nothing else, exactly
    when some entry is not a dict or has a [name] that is not a string;
    otherwise they return a list. *)
Theorem dedup_raises_on_unnamed (xs : list value) :
  ((exists out, _dedup_parties xs = Ok out) <-> Forall (fun x => named x = true) xs) /\
  (_dedup_parties xs = Raise AttributeError <-> exists x, x ∈ xs /\ named x = false) /\
  ((exists out, _dedup_clauses xs = Ok out) <-> Forall (fun x => named x = true) xs) /\
  (_dedup_clauses xs = Raise AttributeError <-> exists x, x ∈ xs /\ named x = false).
Proof.
  assert (Hgen : forall (K : Type) `(Countable K) (key_of : value -> result K) keep,
             (forall x, (exists k, key_of x = Ok k) <-> named x = true) ->
             (forall x e, key_of x = Raise e -> e = AttributeError /\ named x = false) ->
             ((exists out, dedup_by key_of keep xs = Ok out) <->
              Forall (fun x => named x = true) xs) /\
             (dedup_by key_of keep xs = Raise AttributeError <->
              exists x, x ∈ xs /\ named x = false)).
  { intros K ? ? key_of keep Hok Hraise.
    assert (Hall : (exists out, dedup_by key_of keep xs = Ok out) <->
                   Forall (fun x => named x = true) xs).
    { rewrite dedup_by_Ok. apply Forall_iff. intros x. apply Hok. }
    split; [exact Hall|]. split.
    - intros Hr. apply dedup_by_Raise in Hr as [x [Hx Hxe]].
      exists x. split; [assumption|]. now apply Hraise in Hxe.
    - intros [x [Hx Hbad]].
      destruct (dedup_by key_of keep xs) as [out|e] eqn:Hd.
      + exfalso. assert (Hf : Forall (fun x => named x = true) xs) by (apply Hall; eauto).
        rewrite Forall_forall in Hf. specialize (Hf x Hx). congruence.
      + apply dedup_by_Raise in Hd as [y [_ Hye]].
        apply Hraise in Hye as [-> _]. reflexivity. }
  rewrite dedup_parties_by, dedup_clauses_by.
  destruct (Hgen string _ _ name_key non_empty_key name_key_named name_key_Raise) as [H1 H2].
  destruct (Hgen (string * bool)%type _ _ clause_key any_key clause_key_named clause_key_Raise)
    as [H3 H4].
  repeat split; try apply H1; try apply H2; try apply H3; try apply H4.
Qed.

(** ** Invariants of the merge loop *)

Lemma dict_set_elem (d : dict) (k k' : string) (v v' : value) :
  (k', v') ∈ dict_set d k v -> (k', v') ∈ d \/ (k' = k /\ v' = v).
Proof.
  induction d as [|[k0 v0] d IH]; simpl.
  - intros Hin. apply list_elem_of_singleton in Hin. injection Hin as -> ->. auto.
  - destruct (String.eqb k0 k) eqn:E; rewrite !elem_of_cons.
    + apply String.eqb_eq in E. subst k0.
      intros [[= -> ->]|Hin]; auto.
    + intros [Heq|Hin]; auto. destruct (IH Hin); auto.
Qed.

Lemma dict_get_elem (d : dict) (k : string) (v : value) :
  dict_get d k = Some v -> (k, v) ∈ d.
Proof.
  induction d as [|[k0 v0] d IH]; simpl; [discriminate|].
  destruct (String.eqb k0 k) eqn:E.
  - apply String.eqb_eq in E. subst k0. intros [= ->]. apply elem_of_cons. now left.
  - intros Hget. apply elem_of_cons. right. auto.
Qed.

Lemma dict_get_keys (d : dict) (k : string) :
  k ∈ keys d <-> exists v, dict_get d k = Some v.
Proof.
  split.
  - intros Hk. destruct (dict_get d k) as [v|] eqn:E; [eauto|].
    apply dict_get_None in E. contradiction.
  - intros [v Hv]. destruct (decide (k ∈ keys d)) as [Hin|Hout]; [assumption|].
    apply dict_get_None in Hout. congruence.
Qed.

Lemma keys_dict_set (d : dict) (k k' : string) (v : value) :
  k' ∈ keys (dict_set d k v) <-> k' = k \/ k' ∈ keys d.
Proof.
  rewrite !dict_get_keys. destruct (decide (k = k')) as [<-|Hne].
  - rewrite dict_get_set_eq. split; eauto.
  - rewrite dict_get_set_ne by assumption. split; [auto|].
    intros [->|Hk]; [congruence|assumption].
Qed.

Lemma keys_dict_set_existing (d : dict) (k : string) (v v' : value) :
  dict_get d k = Some v' -> keys (dict_set d k v) = keys d.
Proof.
  induction d as [|[k0 v0] d IH]; simpl; [discriminate|].
  destruct (String.eqb k0 k) eqn:E; [reflexivity|].
  intros Hget. unfold keys in *. cbn [fmap list_fmap]. f_equal. now apply IH.
Qed.

Lemma dict_set_not_nil (d : dict) (k : string) (v : value) : dict_set d k v <> [].
Proof. destruct d as [|[k0 v0] d]; simpl; [|destruct (String.eqb k0 k)]; discriminate. Qed.

Lemma dict_update_not_nil (d new : dict) : d <> [] -> dict_update d new <> [].
Proof.
  unfold dict_update. revert d. induction new as [|[k v] new IH]; intros d Hd; simpl; auto.
  apply IH, dict_set_not_nil.
Qed.

Lemma no_empty_set (d : dict) (k : string) (v : value) :
  no_empty d -> is_empty v = false -> no_empty (dict_set d k v).
Proof.
  intros Hd Hv k' v' Hin. apply dict_set_elem in Hin as [Hin|[_ ->]]; eauto.
Qed.

Lemma is_empty_list (l : list value) : l <> [] -> is_empty (VList l) = false.
Proof. destruct l; [congruence|reflexivity]. Qed.

Lemma is_empty_dict (d : dict) : d <> [] -> is_empty (VDict d) = false.
Proof. destruct d; [congruence|reflexivity]. Qed.

Lemma not_empty_list (l : list value) : is_empty (VList l) = false -> l <> [].
Proof. destruct l; [discriminate|discriminate]. Qed.

Lemma not_empty_dict (d : dict) : is_empty (VDict d) = false -> d <> [].
Proof. destruct d; [discriminate|discriminate]. Qed.

(** What one turn of the inner loop does, case by case. *)
Lemma merge_item_cases (acc : dict) (k : string) (v : value) :
  merge_item acc (k, v) = acc \/
  (is_empty v = false /\ merge_item acc (k, v) = dict_set acc k v) \/
  (exists lo lv, v = VList lv /\ lv <> [] /\ lo <> [] /\
                 dict_get acc k = Some (VList lo) /\
                 merge_item acc (k, v) = dict_set acc k (VList (_dedup_list (lo ++ lv)))) \/
  (exists merged dv, v = VDict dv /\ dv <> [] /\ merged <> [] /\
                     dict_get acc k = Some (VDict merged) /\
                     merge_item acc (k, v) =
                     dict_set acc k (VDict (dict_update merged (non_empty_items dv)))).
Proof.
  unfold merge_item. destruct (is_empty v) eqn:Hv; [auto|].
  destruct (dict_get acc k) as [old|] eqn:Hget; [|auto].
  destruct (is_empty old) eqn:Hold; [auto|].
  destruct v as [| | | |lv|dv], old as [| | | |lo|merged]; auto.
  - right. right. left. exists lo, lv.
    repeat split; auto using not_empty_list.
  - right. right. right. exists merged, dv.
    repeat split; auto using not_empty_dict.
Qed.

Lemma merge_item_no_empty (acc : dict) (kv : string * value) :
  no_empty acc -> no_empty (merge_item acc kv).
Proof.
  intros Hacc. destruct kv as [k v].
  destruct (merge_item_cases acc k v)
    as [->|[[Hv ->]|[(lo & lv & -> & Hlv & Hlo & Hget & ->)
                    |(merged & dv & -> & Hdv & Hm & Hget & ->)]]]; auto.
  - now apply no_empty_set.
  - apply no_empty_set; [assumption|].
    apply is_empty_list, dedup_list_not_nil.
    destruct lo; [congruence|discriminate].
  - apply no_empty_set; [assumption|].
    now apply is_empty_dict, dict_update_not_nil.
Qed.

Lemma merge_obj_no_empty (obj acc : dict) : no_empty acc -> no_empty (merge_obj acc obj).
Proof.
  revert acc. induction obj as [|kv obj IH]; intros acc Hacc; [assumption|].
  rewrite merge_obj_cons. apply IH. now apply merge_item_no_empty.
Qed.

Lemma fold_merge_no_empty (objs : list dict) (acc : dict) :
  no_empty acc -> no_empty (fold_left merge_obj objs acc).
Proof.
  revert acc. induction objs as [|o objs IH]; intros acc Hacc; [assumption|].
  simpl. apply IH. now apply merge_obj_no_empty.
Qed.

Lemma merge_fold_no_empty (objs : list dict) : no_empty (merge_fold objs).
Proof.
  apply fold_merge_no_empty. intros k v Hin. now apply elem_of_nil in Hin.
Qed.

Lemma postprocess_inv (d m : dict) :
  _postprocess_contract d = Ok m ->
  exists data1,
    (data1 = d \/
     exists ps ps', dict_get d "parties" = Some (VList ps) /\
                    _dedup_parties ps = Ok ps' /\
                    data1 = dict_set d "parties" (VList ps')) /\
    (m = data1 \/
     exists cs cs', dict_get data1 "clauses" = Some (VList cs) /\
                    _dedup_clauses cs = Ok cs' /\
                    m = dict_set data1 "clauses" (VList cs')).
Proof.
  unfold _postprocess_contract. intros Hpost.
  apply bind_Ok in Hpost as (data1 & H1 & H2). exists data1. split.
  - destruct (dict_get d "parties") as [[| | | |ps|]|]; try (injection H1 as <-; auto).
    apply bind_Ok in H1 as (ps' & Hps & H1). injection H1 as <-. right. eauto.
  - destruct (dict_get data1 "clauses") as [[| | | |cs|]|]; try (injection H2 as <-; auto).
    apply bind_Ok in H2 as (cs' & Hcs & H2). injection H2 as <-. right. eauto.
Qed.

Lemma postprocess_keys (d m : dict) :
  _postprocess_contract d = Ok m -> keys m = keys d.
Proof.
  intros Hpost. apply postprocess_inv in Hpost as (data1 & H1 & H2).
  assert (Hk1 : keys data1 = keys d).
  { destruct H1 as [->|(ps & ps' & Hget & _ & ->)]; [reflexivity|].
    eapply keys_dict_set_existing; eauto. }
  destruct H2 as [->|(cs & cs' & Hget & _ & ->)]; [assumption|].
  rewrite <- Hk1. eapply keys_dict_set_existing; eauto.
Qed.

Lemma dedup_clauses_not_nil (cs out : list value) :
  _dedup_clauses cs = Ok out -> cs <> [] -> out <> [].
Proof.
  rewrite dedup_clauses_by. intros Hout Hcs.
  destruct cs as [|c cs]; [congruence|].
  assert (Hall : Forall (fun x => exists k, clause_key x = Ok k) (c :: cs)).
  { apply (dedup_by_Ok clause_key any_key). eauto. }
  inversion Hall as [|? ? [k Hk] _]; subst.
  destruct (dedup_by_spec clause_key any_key _ _ Hout) as (_ & ks & Hkeys & _ & _ & Hcover).
  assert (Hin : k ∈ ks).
  { apply (Hcover c k); [apply elem_of_cons; now left|assumption|reflexivity]. }
  intros ->. inversion Hkeys; subst. now apply elem_of_nil in Hin.
Qed.

(** X6: while the records are folded, no key of the accumulator ever holds
    an empty value, so the test of the source on the existing value never
    succeeds.  In the mapping that [merge_json_objects] returns, the only
    empty value there can be is a [parties] list that the final pass has
    emptied. *)
Theorem merge_holds_no_empty_value (objs : list dict) :
  no_empty (merge_fold objs) /\
  (forall m k v, merge_json_objects objs = Ok m -> (k, v) ∈ m ->
                 is_empty v = true -> k = "parties" /\ v = VList []).
Proof.
  split; [apply merge_fold_no_empty|]. intros m k v Hm Hin Hv.
  assert (Hpost : _postprocess_contract (merge_fold objs) = Ok m).
  { destruct objs; [injection Hm as <-; reflexivity|exact Hm]. }
  pose proof (merge_fold_no_empty objs) as Hacc.
  apply postprocess_inv in Hpost as (data1 & H1 & H2).
  assert (Hdata1 : forall k' v', (k', v') ∈ data1 -> is_empty v' = true ->
                                 k' = "parties" /\ v' = VList []).
  { intros k' v' Hin' Hv'.
    destruct H1 as [->|(ps & ps' & Hget & Hps & ->)].
    - rewrite (Hacc _ _ Hin') in Hv'. discriminate.
    - apply dict_set_elem in Hin' as [Hin'|[-> ->]].
      + rewrite (Hacc _ _ Hin') in Hv'. discriminate.
      + split; [reflexivity|]. destruct ps'; [reflexivity|discriminate]. }
  destruct H2 as [->|(cs & cs' & Hget & Hcs & ->)]; [eauto|].
  apply dict_set_elem in Hin as [Hin|[-> ->]]; [eauto|].
  exfalso. apply dict_get_elem in Hget.
  assert (Hne : cs <> []).
  { destruct cs; [|discriminate].
    destruct (Hdata1 _ _ Hget eq_refl) as [Hk _]. discriminate. }
  pose proof (dedup_clauses_not_nil _ _ Hcs Hne) as Hne'.
  destruct cs'; [congruence|discriminate].
Qed.

Lemma merge_holds_no_empty_value_witness :
  no_empty (merge_fold [[("parties", VList [VDict [("name", VStr " ")]]); ("a", VInt 0)]]) /\
  (is_empty (VList []) = true -> "parties" = "parties" /\ VList [] = VList []).
Proof.
  destruct (merge_holds_no_empty_value
              [[("parties", VList [VDict [("name", VStr " ")]]); ("a", VInt 0)]])
    as [Hacc Hres].
  split; [exact Hacc|].
  apply (Hres [("parties", VList [])] "parties" (VList [])).
  - vm_compute. reflexivity.
  - apply elem_of_cons. now left.
Defined.

Lemma merge_item_keys (acc : dict) (k k' : string) (v : value) :
  k' ∈ keys (merge_item acc (k, v)) <->
  k' ∈ keys acc \/ (k' = k /\ is_empty v = false).
Proof.
  unfold merge_item. destruct (is_empty v) eqn:Hv.
  { split; [auto|]. intros [H|[_ H]]; [assumption|discriminate]. }
  destruct (dict_get acc k) as [old|] eqn:Hget.
  - assert (Hk : k ∈ keys acc) by (apply dict_get_keys; eauto).
    assert (Hset : forall w, k' ∈ keys (dict_set acc k w) <->
                             k' ∈ keys acc \/ (k' = k /\ false = false)).
    { intros w. rewrite keys_dict_set. split; [intros [->|H]; auto|].
      intros [H|[-> _]]; auto. }
    assert (Hsame : k' ∈ keys acc <-> k' ∈ keys acc \/ (k' = k /\ false = false)).
    { split; [auto|]. intros [H|[-> _]]; auto. }
    destruct (is_empty old); [apply Hset|].
    destruct v, old; try apply Hsame; apply Hset.
  - rewrite keys_dict_set. split; [intros [->|H]; auto|].
    intros [H|[-> _]]; auto.
Qed.

Lemma merge_obj_keys (obj acc : dict) (k : string) :
  k ∈ keys (merge_obj acc obj) <->
  k ∈ keys acc \/ exists v, (k, v) ∈ obj /\ is_empty v = false.
Proof.
  revert acc. induction obj as [|[k0 v0] obj IH]; intros acc.
  - simpl. split; [auto|]. intros [H|[v [Hin _]]]; [assumption|].
    now apply elem_of_nil in Hin.
  - rewrite merge_obj_cons, IH, merge_item_keys. split.
    + intros [[H|[-> Hv]]|[v [Hin Hv]]]; auto.
      * right. exists v0. split; [apply elem_of_cons; now left|assumption].
      * right. exists v. split; [apply elem_of_cons; now right|assumption].
    + intros [H|[v [Hin Hv]]]; auto.
      apply elem_of_cons in Hin as [[= -> ->]|Hin]; [auto|].
      right. eauto.
Qed.

Lemma fold_merge_keys (objs : list dict) (acc : dict) (k : string) :
  k ∈ keys (fold_left merge_obj objs acc) <->
  k ∈ keys acc \/ exists o v, o ∈ objs /\ (k, v) ∈ o /\ is_empty v = false.
Proof.
  revert acc. induction objs as [|o objs IH]; intros acc; simpl.
  - split; [auto|]. intros [H|(o & v & Ho & _)]; [assumption|].
    now apply elem_of_nil in Ho.
  - rewrite IH, merge_obj_keys. split.
    + intros [[H|(v & Hin & Hv)]|(o' & v & Ho & Hin & Hv)]; auto.
      * right. exists o, v. split; [apply elem_of_cons; now left|auto].
      * right. exists o', v. split; [apply elem_of_cons; now right|auto].
    + intros [H|(o' & v & Ho & Hin & Hv)]; auto.
      apply elem_of_cons in Ho as [->|Ho]; [left; right; eauto|].
      right. eauto.
Qed.

(** X7: the keys of the merged mapping are exactly the keys to which some
    record gives a non-empty value: the merge invents no key, and loses
    none that has a value. *)
Theorem merge_keys (objs : list dict) (m : dict) (k : string) :
  merge_json_objects objs = Ok m ->
  k ∈ keys m <-> exists o v, o ∈ objs /\ (k, v) ∈ o /\ is_empty v = false.
Proof.
  intros Hm.
  assert (Hpost : _postprocess_contract (merge_fold objs) = Ok m).
  { destruct objs; [injection Hm as <-; reflexivity|exact Hm]. }
  rewrite (postprocess_keys _ _ Hpost). unfold merge_fold.
  rewrite fold_merge_keys. split; [|auto].
  intros [H|H]; [now apply elem_of_nil in H|assumption].
Qed.

Lemma merge_keys_witness :
  "b" ∈ keys [("b", VStr "x")] <->
  exists o v, o ∈ [[("a", VNone)]; [("a", VStr EmptyString); ("b", VStr "x")]] /\
              (("b", v) : string * value) ∈ o /\ is_empty v = false.
Proof.
  apply (merge_keys [[("a", VNone)]; [("a", VStr EmptyString); ("b", VStr "x")]]
           [("b", VStr "x")] "b").
  vm_compute. reflexivity.
Defined.

(** ** First value, later values *)

Lemma merge_obj_skips (obj acc : dict) (k : string) :
  (forall w, (k, w) ∈ obj -> is_empty w = true) ->
  dict_get (merge_obj acc obj) k = dict_get acc k.
Proof.
  revert acc. induction obj as [|[k0 v0] obj IH]; intros acc Hobj; [reflexivity|].
  rewrite merge_obj_cons, IH.
  - destruct (decide (k0 = k)) as [->|Hne].
    + rewrite merge_item_empty; [reflexivity|].
      apply Hobj, elem_of_cons. now left.
    + now apply merge_item_other.
  - intros w Hw. apply Hobj, elem_of_cons. now right.
Qed.

Lemma fold_merge_skips (objs : list dict) (acc : dict) (k : string) :
  (forall o, o ∈ objs -> forall w, (k, w) ∈ o -> is_empty w = true) ->
  dict_get (fold_left merge_obj objs acc) k = dict_get acc k.
Proof.
  revert acc. induction objs as [|o objs IH]; intros acc Hobjs; [reflexivity|].
  simpl. rewrite IH, merge_obj_skips; [reflexivity| |].
  - apply Hobjs, elem_of_cons. now left.
  - intros o' Ho'. apply Hobjs, elem_of_cons. now right.
Qed.

Lemma fold_merge_keeps_scalar (objs : list dict) (acc : dict) (k : string) (v : value) :
  dict_get acc k = Some v -> scalar v = true -> is_empty v = false ->
  dict_get (fold_left merge_obj objs acc) k = Some v.
Proof.
  revert acc. induction objs as [|o objs IH]; intros acc Hget Hs Hne; [assumption|].
  simpl. apply IH; auto. now apply merge_obj_keeps_scalar.
Qed.

(** X8: across any number of records, the first non-empty value given to a
    key, when it is a scalar, is the value of that key in the result:
    records before it that give the key only empty values (or do not have
    it) do not count, and no record after it changes it. *)
Theorem merge_first_non_empty_scalar (before after : list dict) (r : dict)
    (k : string) (v : value) :
  (forall o, o ∈ before -> forall w, (k, w) ∈ o -> is_empty w = true) ->
  dict_get r k = Some v -> scalar v = true -> is_empty v = false ->
  dict_get (merge_fold (before ++ r :: after)) k = Some v /\
  (forall m, merge_json_objects (before ++ r :: after) = Ok m -> dict_get m k = Some v).
Proof.
  intros Hbefore Hget Hs Hne.
  assert (Hfold : dict_get (merge_fold (before ++ r :: after)) k = Some v).
  { unfold merge_fold. rewrite fold_left_app. simpl.
    apply fold_merge_keeps_scalar; auto.
    apply merge_obj_seeds_scalar; auto.
    now rewrite fold_merge_skips. }
  split; [assumption|]. intros m Hm.
  assert (Hpost : _postprocess_contract (merge_fold (before ++ r :: after)) = Ok m).
  { destruct before; exact Hm. }
  eapply postprocess_keeps_scalar; eauto.
Qed.

Lemma merge_first_non_empty_scalar_witness :
  dict_get (merge_fold ([[("a", VNone)]; [("b", VInt 1)]]
                          ++ [("a", VStr "x")] :: [[("a", VStr "y")]])) "a"
  = Some (VStr "x").
Proof.
  apply (merge_first_non_empty_scalar
           [[("a", VNone)]; [("b", VInt 1)]] [[("a", VStr "y")]]
           [("a", VStr "x")] "a" (VStr "x")); try reflexivity.
  intros o Ho w Hw.
  apply elem_of_cons in Ho as [->|Ho].
  - apply list_elem_of_singleton in Hw. now injection Hw as ->.
  - apply list_elem_of_singleton in Ho as ->.
    apply list_elem_of_singleton in Hw. discriminate.
Defined.

Lemma fold_merge_non_empty_items (objs : list dict) (acc : dict) :
  fold_left merge_obj (map non_empty_items objs) acc = fold_left merge_obj objs acc.
Proof.
  revert acc. induction objs as [|o objs IH]; intros acc; simpl; [reflexivity|].
  rewrite IH. f_equal. apply merge_obj_filter.
  intros [k v]; simpl. now destruct (is_empty v).
Qed.

(** X9: the merge depends on the non-empty pairs only.  Removing from every
    record the pairs whose value is empty changes nothing, and neither does
    removing or adding a record that has no pair at all. *)
Theorem merge_ignores_empty (objs before after : list dict) :
  merge_json_objects (map non_empty_items objs) = merge_json_objects objs /\
  merge_json_objects (before ++ [] :: after) = merge_json_objects (before ++ after).
Proof.
  split.
  - destruct objs as [|o objs]; [reflexivity|].
    unfold merge_json_objects, merge_fold. cbn [map].
    now rewrite <- (fold_merge_non_empty_items (o :: objs)).
  - assert (Hfold : merge_fold (before ++ [] :: after) = merge_fold (before ++ after)).
    { unfold merge_fold. now rewrite !fold_left_app. }
    unfold merge_json_objects. rewrite Hfold.
    destruct (before ++ after) as [|o l] eqn:E.
    + apply app_eq_nil in E as [-> ->]. reflexivity.
    + destruct before; reflexivity.
Qed.

Lemma grows_refl (v : value) : is_empty v = false -> grows v v.
Proof.
  destruct v; simpl; try discriminate; auto.
  intros _ x Hx. now apply list_elem_of_fmap_2.
Qed.

Lemma grows_trans (a b c : value) : grows a b -> grows b c -> grows a c.
Proof.
  destruct a, b; simpl; try (intros [Hs Hb]; discriminate);
    try (intros [_ [= <-]]); try (intros [_ [= <-]]); auto;
    destruct c; simpl; try (intros _ [Hs Hb]; discriminate); auto.
  - intros Hab Hbc x Hx. apply Hab in Hx.
    apply list_elem_of_fmap in Hx as (y & -> & Hy). auto.
Qed.

Lemma keys_dict_update (d new : dict) (kk : string) :
  kk ∈ keys d -> kk ∈ keys (dict_update d new).
Proof.
  unfold dict_update. revert d. induction new as [|[k v] new IH]; intros d Hd; simpl; auto.
  apply IH, keys_dict_set. now right.
Qed.

Lemma merge_item_grows (acc : dict) (kv : string * value) (k : string) (old : value) :
  no_empty acc -> dict_get acc k = Some old ->
  exists new, dict_get (merge_item acc kv) k = Some new /\ grows old new.
Proof.
  intros Hacc Hget.
  assert (Hold : is_empty old = false) by (eapply Hacc, dict_get_elem; eauto).
  destruct kv as [k' v]. destruct (decide (k' = k)) as [->|Hne].
  - unfold merge_item. destruct (is_empty v); [eauto using grows_refl|].
    rewrite Hget, Hold.
    destruct v as [| | | |lv|dv], old as [| | | |lo|merged];
      try (exists old; split; [assumption|now apply grows_refl]);
      eauto using grows_refl; rewrite dict_get_set_eq; eexists; (split; [reflexivity|]).
    + intros x Hx. apply dedup_list_keys. rewrite fmap_app, elem_of_app. left.
      now apply list_elem_of_fmap_2.
    + intros kk Hkk. now apply keys_dict_update.
  - rewrite merge_item_other by assumption. eauto using grows_refl.
Qed.

Lemma merge_obj_grows (obj acc : dict) (k : string) (old : value) :
  no_empty acc -> dict_get acc k = Some old ->
  exists new, dict_get (merge_obj acc obj) k = Some new /\ grows old new.
Proof.
  revert acc old. induction obj as [|kv obj IH]; intros acc old Hacc Hget.
  - exists old. split; [assumption|]. eapply grows_refl, Hacc, dict_get_elem; eauto.
  - rewrite merge_obj_cons.
    destruct (merge_item_grows acc kv k old Hacc Hget) as (mid & Hmid & Hg1).
    destruct (IH _ mid (merge_item_no_empty acc kv Hacc) Hmid) as (new & Hnew & Hg2).
    exists new. split; [assumption|]. eapply grows_trans; eauto.
Qed.

Lemma fold_merge_grows (objs : list dict) (acc : dict) (k : string) (old : value) :
  no_empty acc -> dict_get acc k = Some old ->
  exists new, dict_get (fold_left merge_obj objs acc) k = Some new /\ grows old new.
Proof.
  revert acc old. induction objs as [|o objs IH]; intros acc old Hacc Hget.
  - exists old. split; [assumption|]. eapply grows_refl, Hacc, dict_get_elem; eauto.
  - simpl.
    destruct (merge_obj_grows o acc k old Hacc Hget) as (mid & Hmid & Hg1).
    destruct (IH _ mid (merge_obj_no_empty o acc Hacc) Hmid) as (new & Hnew & Hg2).
    exists new. split; [assumption|]. eapply grows_trans; eauto.
Qed.

(** X10: merging more records never removes a key and never changes the kind
    of what it holds.  A scalar stays what it is; a list stays a list that
    still has, up to serialization, every element it had; a dict stays a
    dict that still has every key it had. *)
Theorem merge_only_grows (objs more : list dict) (k : string) (old : value) :
  dict_get (merge_fold objs) k = Some old ->
  exists new, dict_get (merge_fold (objs ++ more)) k = Some new /\ grows old new.
Proof.
  intros Hget. unfold merge_fold. rewrite fold_left_app.
  apply fold_merge_grows; [apply merge_fold_no_empty|exact Hget].
Qed.

Lemma merge_only_grows_witness :
  exists new,
    dict_get (merge_fold ([[("tags", VList [VStr "x"])]]
                            ++ [[("tags", VStr "y")]; [("tags", VList [VStr "z"])]])) "tags"
    = Some new /\ grows (VList [VStr "x"]) new.
Proof.
  apply (merge_only_grows [[("tags", VList [VStr "x"])]]
           [[("tags", VStr "y")]; [("tags", VList [VStr "z"])]] "tags" (VList [VStr "x"])).
  reflexivity.
Defined.

(** ** Dict union *)

Lemma dict_get_update (d new : dict) (kk : string) :
  NoDup (keys new) ->
  dict_get (dict_update d new) kk =
  match dict_get new kk with
  | Some w => Some w
  | None => dict_get d kk
  end.
Proof.
  unfold dict_update. revert d. induction new as [|[k v] new IH]; intros d Hnd; [reflexivity|].
  change (keys ((k, v) :: new)) with (k :: keys new) in Hnd.
  apply NoDup_cons in Hnd as [Hk Hnd]. simpl fold_left. rewrite IH by assumption.
  simpl dict_get. destruct (String.eqb k kk) eqn:E.
  - apply String.eqb_eq in E. subst kk.
    apply dict_get_None in Hk. rewrite Hk. apply dict_get_set_eq.
  - apply String.eqb_neq in E. now rewrite dict_get_set_ne.
Qed.

Lemma keys_non_empty_items (d : dict) (kk : string) :
  kk ∈ keys (non_empty_items d) -> kk ∈ keys d.
Proof.
  unfold keys, non_empty_items. induction d as [|[k v] d IH]; simpl; [auto|].
  destruct (is_empty v); simpl; rewrite ?elem_of_cons; [auto|].
  intros [->|H]; auto.
Qed.

Lemma non_empty_items_wf (d : dict) : dict_wf d -> dict_wf (non_empty_items d).
Proof.
  unfold dict_wf. induction d as [|[k v] d IH]; [auto|].
  change (keys ((k, v) :: d)) with (k :: keys d).
  intros Hnd. apply NoDup_cons in Hnd as [Hk Hnd].
  unfold non_empty_items. simpl List.filter.
  destruct (is_empty v); simpl negb; cbv iota; [now apply IH|].
  change (NoDup (k :: keys (non_empty_items d))).
  apply NoDup_cons. split; [|now apply IH].
  intros Hin. now apply Hk, keys_non_empty_items.
Qed.

Lemma dict_get_non_empty_items (d : dict) (kk : string) :
  dict_wf d ->
  dict_get (non_empty_items d) kk =
  match dict_get d kk with
  | Some w => if is_empty w then None else Some w
  | None => None
  end.
Proof.
  unfold dict_wf. induction d as [|[k v] d IH]; [reflexivity|].
  change (keys ((k, v) :: d)) with (k :: keys d).
  intros Hnd. apply NoDup_cons in Hnd as [Hk Hnd].
  unfold non_empty_items in *. simpl List.filter. simpl dict_get.
  destruct (String.eqb k kk) eqn:E.
  - apply String.eqb_eq in E. subst kk.
    destruct (is_empty v); simpl negb; cbv iota.
    + rewrite IH by assumption. apply dict_get_None in Hk. now rewrite Hk.
    + simpl. now rewrite String.eqb_refl.
  - destruct (is_empty v); simpl negb; cbv iota; [now apply IH|].
    simpl. rewrite E. now apply IH.
Qed.

(** X11: when the accumulator and the incoming record both hold a non-empty
    dict for a key, the key holds their union afterwards: an entry of the
    incoming dict whose value is not empty replaces or extends the existing
    one as a whole (nested values are not merged), and every other entry of
    the existing dict is left as it was. *)
Theorem merge_dicts_union (acc : dict) (k : string) (merged dv : dict) :
  dict_get acc k = Some (VDict merged) -> merged <> [] -> dv <> [] -> dict_wf dv ->
  exists u,
    merge_item acc (k, VDict dv) = dict_set acc k (VDict u) /\
    forall kk,
      dict_get u kk =
      match dict_get dv kk with
      | Some w => if is_empty w then dict_get merged kk else Some w
      | None => dict_get merged kk
      end.
Proof.
  intros Hget Hm Hdv Hwf.
  exists (dict_update merged (non_empty_items dv)). split.
  - unfold merge_item. rewrite Hget.
    destruct dv; [congruence|]. destruct merged; [congruence|]. reflexivity.
  - intros kk. rewrite dict_get_update by now apply non_empty_items_wf.
    rewrite dict_get_non_empty_items by assumption.
    destruct (dict_get dv kk) as [w|]; [|reflexivity].
    now destruct (is_empty w).
Qed.

Lemma merge_dicts_union_witness :
  exists u,
    merge_item [("m", VDict [("k1", VInt 1)])] ("m", VDict [("k1", VInt 0); ("k2", VInt 2)])
    = dict_set [("m", VDict [("k1", VInt 1)])] "m" (VDict u) /\
    forall kk,
      dict_get u kk =
      match dict_get [("k1", VInt 0); ("k2", VInt 2)] kk with
      | Some w => if is_empty w then dict_get [("k1", VInt 1)] kk else Some w
      | None => dict_get [("k1", VInt 1)] kk
      end.
Proof.
  apply (merge_dicts_union
           [("m", VDict [("k1", VInt 1)])] "m"
           [("k1", VInt 1)] [("k1", VInt 0); ("k2", VInt 2)]).
  - reflexivity.
  - discriminate.
  - discriminate.
  - apply (bool_decide_unpack _). vm_compute. exact I.
Defined.

(** ** When the merge raises *)

Lemma Forall_sublist_of {A} (P : A -> Prop) (l1 l2 : list A) :
  l1 `sublist_of` l2 -> Forall P l2 -> Forall P l1.
Proof.
  intros Hsub Hall. rewrite Forall_forall in *.
  intros x Hx. eapply Hall, elem_of_sublist; eauto.
Qed.

Lemma dedup_parties_total (ps : list value) :
  Forall (fun x => named x = true) ps -> exists out, _dedup_parties ps = Ok out.
Proof.
  intros Hall. rewrite dedup_parties_by. apply dedup_by_Ok.
  eapply Forall_impl; [exact Hall|]. intros x Hx. now apply name_key_named.
Qed.

Lemma dedup_clauses_total (cs : list value) :
  Forall (fun x => named x = true) cs -> exists out, _dedup_clauses cs = Ok out.
Proof.
  intros Hall. rewrite dedup_clauses_by. apply dedup_by_Ok.
  eapply Forall_impl; [exact Hall|]. intros x Hx. now apply clause_key_named.
Qed.

Lemma dedup_parties_Raise (ps : list value) (e : exn) :
  _dedup_parties ps = Raise e -> e = AttributeError.
Proof.
  rewrite dedup_parties_by. intros Hr.
  apply dedup_by_Raise in Hr as (x & _ & Hx). now apply name_key_Raise in Hx.
Qed.

Lemma dedup_clauses_Raise (cs : list value) (e : exn) :
  _dedup_clauses cs = Raise e -> e = AttributeError.
Proof.
  rewrite dedup_clauses_by. intros Hr.
  apply dedup_by_Raise in Hr as (x & _ & Hx). now apply clause_key_Raise in Hx.
Qed.

(** The lists that the accumulator holds under [kq] are made of entries of
    the lists that the records hold under [kq]. *)
Lemma merge_item_list_entries (P : value -> Prop) (kq : string) (acc : dict)
    (kv : string * value) :
  (forall l, dict_get acc kq = Some (VList l) -> Forall P l) ->
  (forall l, kv = (kq, VList l) -> Forall P l) ->
  forall l, dict_get (merge_item acc kv) kq = Some (VList l) -> Forall P l.
Proof.
  intros Hacc Hkv l. destruct kv as [k v].
  destruct (decide (k = kq)) as [->|Hne].
  - unfold merge_item. destruct (is_empty v); [apply Hacc|].
    destruct (dict_get acc kq) as [old|] eqn:Hget.
    + destruct (is_empty old).
      { rewrite dict_get_set_eq. intros [= ->]. now apply Hkv. }
      destruct v as [| | | |lv|dv], old as [| | | |lo|merged];
        try (rewrite Hget; apply Hacc); try (rewrite Hget; discriminate).
      * rewrite dict_get_set_eq. intros [= <-].
        eapply Forall_sublist_of; [apply dedup_list_sublist|].
        apply Forall_app. split; [now apply Hacc|now apply Hkv].
      * rewrite dict_get_set_eq. discriminate.
    + rewrite dict_get_set_eq. intros [= ->]. now apply Hkv.
  - rewrite merge_item_other by assumption. apply Hacc.
Qed.

Lemma merge_obj_list_entries (P : value -> Prop) (kq : string) (obj acc : dict) :
  (forall l, dict_get acc kq = Some (VList l) -> Forall P l) ->
  (forall l, (kq, VList l) ∈ obj -> Forall P l) ->
  forall l, dict_get (merge_obj acc obj) kq = Some (VList l) -> Forall P l.
Proof.
  revert acc. induction obj as [|kv obj IH]; intros acc Hacc Hobj; [exact Hacc|].
  rewrite merge_obj_cons. apply IH.
  - apply merge_item_list_entries; [assumption|].
    intros l ->. apply Hobj, elem_of_cons. now left.
  - intros l Hl. apply Hobj, elem_of_cons. now right.
Qed.

Lemma fold_merge_list_entries (P : value -> Prop) (kq : string) (objs : list dict)
    (acc : dict) :
  (forall l, dict_get acc kq = Some (VList l) -> Forall P l) ->
  (forall o l, o ∈ objs -> (kq, VList l) ∈ o -> Forall P l) ->
  forall l, dict_get (fold_left merge_obj objs acc) kq = Some (VList l) -> Forall P l.
Proof.
  revert acc. induction objs as [|o objs IH]; intros acc Hacc Hobjs; [exact Hacc|].
  simpl. apply IH.
  - apply merge_obj_list_entries; [assumption|].
    intros l Hl. apply (Hobjs o l); [apply elem_of_cons; now left|exact Hl].
  - intros o' l Ho' Hl. apply (Hobjs o' l); [apply elem_of_cons; now right|exact Hl].
Qed.

Lemma postprocess_steps (d : dict) :
  _postprocess_contract d =
  (data1 ← dedup_under "parties" _dedup_parties d;
   dedup_under "clauses" _dedup_clauses data1).
Proof. reflexivity. Qed.

Lemma dedup_under_total (key : string) (dedup : list value -> result (list value))
    (d : dict) :
  (forall l, dict_get d key = Some (VList l) -> exists l', dedup l = Ok l') ->
  exists d', dedup_under key dedup d = Ok d'.
Proof.
  intros Hd. unfold dedup_under.
  destruct (dict_get d key) as [[| | | |l|]|]; eauto.
  destruct (Hd l eq_refl) as [l' Hl']. rewrite Hl'. simpl. eauto.
Qed.

Lemma dedup_under_other (key key' : string) (dedup : list value -> result (list value))
    (d d' : dict) :
  key <> key' -> dedup_under key dedup d = Ok d' -> dict_get d' key' = dict_get d key'.
Proof.
  intros Hne. unfold dedup_under.
  destruct (dict_get d key) as [[| | | |l|]|]; try (now intros [= <-]).
  destruct (dedup l) as [l'|e]; simpl; [|discriminate].
  intros [= <-]. now apply dict_get_set_ne.
Qed.

Lemma dedup_under_Raise (key : string) (dedup : list value -> result (list value))
    (d : dict) (e : exn) :
  dedup_under key dedup d = Raise e -> exists l, dedup l = Raise e.
Proof.
  unfold dedup_under. destruct (dict_get d key) as [[| | | |l|]|]; try discriminate.
  destruct (dedup l) as [l'|e'] eqn:E; simpl; [discriminate|].
  intros [= <-]. eauto.
Qed.

(** X12: [merge_json_objects] raises nothing but [AttributeError], and it
    returns a mapping whenever, in every record, every entry of a list held
    under [parties] or [clauses] is a dict whose [name] is a string or is
    missing. *)
Theorem merge_raises_only_on_unnamed (objs : list dict) :
  (forall e, merge_json_objects objs = Raise e -> e = AttributeError) /\
  ((forall o key l, o ∈ objs -> key = "parties" \/ key = "clauses" ->
                    (key, VList l) ∈ o -> Forall (fun x => named x = true) l) ->
   exists m, merge_json_objects objs = Ok m).
Proof.
  split.
  - intros e. destruct objs as [|o objs]; [discriminate|].
    unfold merge_json_objects. rewrite postprocess_steps.
    destruct (dedup_under "parties" _dedup_parties (merge_fold (o :: objs)))
      as [data1|e1] eqn:E1; simpl.
    + intros Hr. apply dedup_under_Raise in Hr as [l Hl].
      now apply dedup_clauses_Raise in Hl.
    + intros [= <-]. apply dedup_under_Raise in E1 as [l Hl].
      now apply dedup_parties_Raise in Hl.
  - intros Hobjs. destruct objs as [|o objs]; [now exists []|].
    unfold merge_json_objects. rewrite postprocess_steps.
    assert (Hlists : forall key l, key = "parties" \/ key = "clauses" ->
                       dict_get (merge_fold (o :: objs)) key = Some (VList l) ->
                       Forall (fun x => named x = true) l).
    { intros key l Hkey. unfold merge_fold.
      apply fold_merge_list_entries; [discriminate|].
      intros o' l' Ho' Hl'. apply (Hobjs o' key l'); assumption. }
    assert (Hex : exists data1,
               dedup_under "parties" _dedup_parties (merge_fold (o :: objs)) = Ok data1).
    { apply dedup_under_total.
      intros l Hl. apply dedup_parties_total.
      apply (Hlists "parties" l); [now left|exact Hl]. }
    destruct Hex as [data1 H1]. rewrite H1. simpl. apply dedup_under_total.
    intros l Hl. apply dedup_clauses_total.
    rewrite (dedup_under_other "parties" "clauses" _ _ _ ltac:(discriminate) H1) in Hl.
    apply (Hlists "clauses" l); [now right|exact Hl].
Qed.

Lemma merge_raises_only_on_unnamed_witness :
  exists m,
    merge_json_objects
      [[("parties", VList [VDict [("role", VStr "buyer")]]); ("tags", VList [VInt 1])]]
    = Ok m.
Proof.
  apply (merge_raises_only_on_unnamed
           [[("parties", VList [VDict [("role", VStr "buyer")]]); ("tags", VList [VInt 1])]]).
  intros o key l Ho Hkey Hl.
  apply list_elem_of_singleton in Ho as ->.
  apply elem_of_cons in Hl as [Hl|Hl].
  - injection Hl as -> ->. repeat constructor.
  - apply list_elem_of_singleton in Hl. injection Hl as -> _.
    destruct Hkey; discriminate.
Defined.

(** ** The final pass *)

Lemma dict_set_same (d : dict) (k : string) (v : value) :
  dict_get d k = Some v -> dict_set d k v = d.
Proof.
  induction d as [|[k0 v0] d IH]; simpl; [discriminate|].
  destruct (String.eqb k0 k) eqn:E.
  - now intros [= ->].
  - intros Hget. now rewrite IH.
Qed.

Lemma dedup_parties_idem (ps out : list value) :
  _dedup_parties ps = Ok out -> _dedup_parties out = Ok out.
Proof.
  rewrite !dedup_parties_by. intros Hout.
  destruct (dedup_by_spec name_key non_empty_key ps out Hout)
    as (_ & ks & Hkeys & Hnd & Hkeep & _).
  rewrite ?dedup_parties_by. now apply dedup_by_fixed with (ks := ks).
Qed.

Lemma dedup_clauses_idem (cs out : list value) :
  _dedup_clauses cs = Ok out -> _dedup_clauses out = Ok out.
Proof.
  rewrite !dedup_clauses_by. intros Hout.
  destruct (dedup_by_spec clause_key any_key cs out Hout)
    as (_ & ks & Hkeys & Hnd & Hkeep & _).
  rewrite ?dedup_clauses_by. now apply dedup_by_fixed with (ks := ks).
Qed.

(** [d] is left as it is by the step on [key]. *)
Lemma dedup_under_fixed (key : string) (dedup : list value -> result (list value))
    (d : dict) :
  dedup_under key dedup d = Ok d <->
  match dict_get d key with
  | Some (VList l) => dedup l = Ok l
  | _ => True
  end.
Proof.
  unfold dedup_under.
  destruct (dict_get d key) as [[| | | |l|]|] eqn:Hget; try tauto.
  split.
  - destruct (dedup l) as [l'|e]; simpl; [|discriminate].
    intros [= Hd]. rewrite <- Hd in Hget. rewrite dict_get_set_eq in Hget. congruence.
  - intros ->. simpl. now rewrite dict_set_same.
Qed.

Lemma dedup_under_idem (key : string) (dedup : list value -> result (list value))
    (d d' : dict) :
  (forall l l', dedup l = Ok l' -> dedup l' = Ok l') ->
  dedup_under key dedup d = Ok d' -> dedup_under key dedup d' = Ok d'.
Proof.
  intros Hidem Hd. apply dedup_under_fixed. revert Hd. unfold dedup_under.
  destruct (dict_get d key) as [[| | | |l|]|] eqn:Hget;
    try (intros [= <-]; now rewrite Hget).
  destruct (dedup l) as [l'|e] eqn:Hl; simpl; [|discriminate].
  intros [= <-]. rewrite dict_get_set_eq. eauto.
Qed.

(** X13: the final pass is idempotent and keeps the keys: run on its own
    result it returns it unchanged, and the result has the keys of the
    argument, in the same order. *)
Theorem postprocess_idempotent (d m : dict) :
  _postprocess_contract d = Ok m ->
  _postprocess_contract m = Ok m /\ keys m = keys d.
Proof.
  intros Hpost. split; [|now apply postprocess_keys].
  rewrite postprocess_steps in *.
  apply bind_Ok in Hpost as (data1 & H1 & H2).
  assert (Hp1 : dedup_under "parties" _dedup_parties data1 = Ok data1).
  { eapply dedup_under_idem; eauto using dedup_parties_idem. }
  assert (Hp : dedup_under "parties" _dedup_parties m = Ok m).
  { apply dedup_under_fixed. apply dedup_under_fixed in Hp1.
    now rewrite (dedup_under_other "clauses" "parties" _ _ _ ltac:(discriminate) H2). }
  rewrite Hp. simpl.
  eapply dedup_under_idem; eauto using dedup_clauses_idem.
Qed.

Lemma postprocess_idempotent_witness :
  _postprocess_contract
    [("clauses", VList [VDict [("name", VStr "Term")]]);
     ("parties", VList [VDict [("name", VStr "Acme")]])]
  = Ok [("clauses", VList [VDict [("name", VStr "Term")]]);
        ("parties", VList [VDict [("name", VStr "Acme")]])] /\
  keys [("clauses", VList [VDict [("name", VStr "Term")]]);
        ("parties", VList [VDict [("name", VStr "Acme")]])]
  = keys [("clauses", VList [VDict [("name", VStr "Term")]; VDict [("name", VStr "term")]]);
          ("parties", VList [VDict [("name", VStr "Acme")]; VDict [("name", VStr "ACME")]])].
Proof.
  apply (postprocess_idempotent
           [("clauses", VList [VDict [("name", VStr "Term")]; VDict [("name", VStr "term")]]);
            ("parties", VList [VDict [("name", VStr "Acme")]; VDict [("name", VStr "ACME")]])]).
  vm_compute. reflexivity.
Defined.

(** ** The segmenter: bounds, budgets, routing *)

Lemma str_take_length (n : nat) (s : string) :
  String.length (str_take n s) = Nat.min n (String.length s).
Proof.
  revert s. induction n as [|n IH]; intros [|c s]; simpl; auto.
Qed.

Lemma str_drop_length (n : nat) (s : string) :
  String.length (str_drop n s) = (String.length s - n)%nat.
Proof.
  revert s. induction n as [|n IH]; intros [|c s]; simpl; auto.
Qed.

Lemma ceil_div_mul (n step : Z) :
  0 < step -> 0 <= n ->
  let q := (n + step - 1) / step in
  0 <= q /\ n <= q * step /\ (q - 1) * step < n \/ (n = 0 /\ q = 0).
Proof.
  intros Hstep Hn q.
  destruct (Z.eqb_spec n 0) as [->|Hne].
  - right. split; [reflexivity|]. unfold q. apply Z.div_small. lia.
  - left.
    pose proof (Z.div_mod (n + step - 1) step ltac:(lia)) as Hdm.
    pose proof (Z.mod_pos_bound (n + step - 1) step Hstep) as Hb.
    fold q in Hdm. set (r := (n + step - 1) mod step) in *.
    assert (0 <= q) by (apply Z.div_pos; lia).
    split; [assumption|]. split; nia.
Qed.

Lemma token_len_approx (text : string) :
  token_len _Approx text = ceil_div4 (len text).
Proof.
  unfold token_len, approx_encode.
  change (@length Z) with (@List.length Z).
  rewrite repeat_length, Z2Nat.id; [reflexivity|].
  unfold ceil_div4, len. apply Z.div_pos; lia.
Qed.

Lemma char_chunks_positive (text : string) (max_tokens : Z) :
  0 < max_tokens ->
  char_chunks text max_tokens =
  Ok (map (fun j : nat => str_take (Z.to_nat (max_tokens * 4))
                            (str_drop (j * Z.to_nat (max_tokens * 4)) text))
          (seq 0 (Z.to_nat ((len text + max_tokens * 4 - 1) / (max_tokens * 4))))).
Proof.
  intros Hpos. unfold char_chunks.
  rewrite py_range_positive by lia. simpl. rewrite map_map. f_equal.
  apply map_ext. intros j. unfold slice. f_equal; [f_equal; lia|]. f_equal.
  rewrite Z2Nat.inj_mul, Nat2Z.id by lia. reflexivity.
Qed.

(** X14: in degraded mode with a positive budget [L], there are
    [ceil(len(T) / 4L)] chunks, none of them is empty, none has more than
    [4L] characters, and the estimated length of each is within the
    budget. *)
Theorem split_degraded_chunk_bounds (enc : encoder) (T : string) (L : Z)
    (chunks : list string) :
  0 < L -> degraded enc T L -> split_by_tokens enc T L = Ok chunks ->
  Z.of_nat (length chunks) = (len T + 4 * L - 1) / (4 * L) /\
  Forall (fun c => 0 < len c <= 4 * L /\ token_len _Approx c <= L) chunks.
Proof.
  intros HL Hdeg. unfold split_by_tokens. rewrite Hdeg.
  rewrite char_chunks_positive by assumption. intros [= <-].
  replace (L * 4) with (4 * L) by lia.
  set (step := 4 * L). assert (Hstep : 0 < step) by (unfold step; lia).
  pose proof (ceil_div_mul (len T) step Hstep ltac:(unfold len; lia)) as Hq.
  set (q := (len T + step - 1) / step) in *. cbv zeta in Hq.
  split.
  - change (@length string) with (@List.length string).
    rewrite length_map, length_seq. destruct Hq as [(Hq0 & _)|[_ Hq0]]; lia.
  - apply Forall_forall. intros c Hc.
    apply list_elem_of_In, in_map_iff in Hc as (j & <- & Hj).
    apply in_seq in Hj.
    destruct Hq as [(Hq0 & Hq1 & Hq2)|[_ Hq0]]; [|lia].
    assert (Hjq : Z.of_nat j <= q - 1) by lia.
    assert (Hj' : Z.of_nat j * step < len T).
    { assert (Z.of_nat j * step <= (q - 1) * step)
        by (apply Z.mul_le_mono_nonneg_r; lia). lia. }
    assert (Hlen : len (str_take (Z.to_nat step) (str_drop (j * Z.to_nat step) T))
                   = Z.min step (len T - Z.of_nat j * step)).
    { unfold len in *. rewrite str_take_length, str_drop_length.
      rewrite Nat2Z.inj_min, Nat2Z.inj_sub, Nat2Z.inj_mul, Z2Nat.id by nia.
      reflexivity. }
    rewrite token_len_approx, Hlen. unfold ceil_div4.
    split; [lia|].
    apply Z.lt_succ_r, Z.div_lt_upper_bound; lia.
Qed.

Lemma split_degraded_chunk_bounds_witness :
  Z.of_nat (length ["abcdefgh"; "ijklmnop"; "qrstuvwx"; "yz"])
  = (len "abcdefghijklmnopqrstuvwxyz" + 4 * 2 - 1) / (4 * 2) /\
  Forall (fun c => 0 < len c <= 4 * 2 /\ token_len _Approx c <= 2)
         ["abcdefgh"; "ijklmnop"; "qrstuvwx"; "yz"].
Proof.
  apply (split_degraded_chunk_bounds _Approx "abcdefghijklmnopqrstuvwxyz" 2).
  - lia.
  - apply approx_degraded. lia.
  - vm_compute. reflexivity.
Defined.

(** X15: a budget that is not positive never gives the text back.  With a
    budget of zero the split raises [ValueError]; with a negative budget it
    returns no chunk at all, whatever the text.  This holds without
    tiktoken and with an encoder that encodes the text. *)
Theorem split_non_positive_budget (enc : encoder) (T : string) (L : Z) :
  L <= 0 ->
  (enc = _Approx \/
   exists encode decode toks, enc = Tiktoken encode decode /\ encode T = Ok toks) ->
  split_by_tokens enc T L = if L =? 0 then Raise ValueError else Ok [].
Proof.
  intros HL Henc. unfold split_by_tokens, token_chunks, char_chunks, py_range.
  destruct Henc as [->|(encode & decode & toks & -> & Henc)].
  - destruct (Z.eqb_spec L 0) as [->|Hne]; [reflexivity|].
    destruct (Z.ltb_spec L 0); [|lia]. simpl.
    destruct (Z.eqb_spec (L * 4) 0); [lia|].
    destruct (Z.ltb_spec (L * 4) 0); [|lia]. reflexivity.
  - rewrite Henc. simpl.
    destruct (Z.eqb_spec L 0) as [->|Hne]; [reflexivity|].
    destruct (Z.ltb_spec L 0); [|lia]. reflexivity.
Qed.

Lemma split_non_positive_budget_witness :
  split_by_tokens _Approx "a long contract" (-1) = Ok [].
Proof.
  apply (split_non_positive_budget _Approx "a long contract" (-1)).
  - lia.
  - now left.
Defined.

(** X16: routing and splitting agree in degraded mode.  For a positive
    budget, a text whose estimated length is within the budget is split
    into itself alone (into nothing when it is empty), and a text whose
    estimated length exceeds the budget is split into two chunks at
    least. *)
Theorem split_agrees_with_token_len (T : string) (L : Z) :
  0 < L ->
  (token_len _Approx T <= L ->
   split_by_tokens _Approx T L = Ok (if str_empty T then [] else [T])) /\
  (L < token_len _Approx T ->
   exists c1 c2 rest, split_by_tokens _Approx T L = Ok (c1 :: c2 :: rest)).
Proof.
  intros HL. rewrite token_len_approx.
  assert (Hsplit : split_by_tokens _Approx T L = char_chunks T L).
  { unfold split_by_tokens. now rewrite (approx_degraded T L HL). }
  rewrite Hsplit, char_chunks_positive by assumption. clear Hsplit.
  set (step := L * 4). assert (Hstep : 0 < step) by (unfold step; lia).
  pose proof (ceil_div_mul (len T) step Hstep ltac:(unfold len; lia)) as Hq.
  set (q := (len T + step - 1) / step) in *. cbv zeta in Hq.
  assert (Hfit : ceil_div4 (len T) <= L <-> len T <= step).
  { unfold ceil_div4, step. split; intros H.
    - pose proof (Z.div_mod (len T + 3) 4 ltac:(lia)).
      pose proof (Z.mod_pos_bound (len T + 3) 4 ltac:(lia)). lia.
    - apply Z.lt_succ_r, Z.div_lt_upper_bound; lia. }
  split.
  - intros H. apply Hfit in H.
    destruct T as [|c T'].
    + destruct Hq as [(_ & _ & Hq2)|[_ ->]]; [|reflexivity].
      change (len EmptyString) with 0 in *.
      assert (q <= 0) by nia. destruct q; try lia; reflexivity.
    + assert (Hpos : 0 < len (String c T')) by (unfold len; simpl; lia).
      destruct Hq as [(Hq0 & Hq1 & Hq2)|[Hz _]]; [|lia].
      assert (Hq1' : q = 1) by nia. rewrite Hq1'.
      change (Z.to_nat 1) with 1%nat. cbn [seq map Nat.mul str_drop str_empty].
      f_equal. f_equal. apply str_take_all. unfold len in H. lia.
  - intros H. assert (Hbig : step < len T) by (apply Z.nle_gt; rewrite <- Hfit; lia).
    destruct Hq as [(Hq0 & Hq1 & Hq2)|[Hz _]]; [|lia].
    assert (2 <= q) by nia.
    destruct (Z.to_nat q) as [|[|n]] eqn:E; [lia|lia|].
    cbn [seq map]. do 3 eexists. reflexivity.
Qed.

Lemma split_agrees_with_token_len_witness :
  split_by_tokens _Approx "short" 2 = Ok ["short"].
Proof.
  destruct (split_agrees_with_token_len "short" 2 ltac:(lia)) as [Hfit _].
  apply Hfit. vm_compute. discriminate.
Defined.

(** ** The segmenter: primary mode *)

Lemma take_plus {A} (a b : nat) (l : list A) :
  take (a + b) l = take a l ++ take b (drop a l).
Proof.
  revert l. induction a as [|a IH]; intros [|x l]; simpl; auto.
  - now destruct b.
  - now rewrite IH.
Qed.

Lemma list_windows_concat {A} (step n : nat) (l : list A) :
  concat (map (fun j => take step (drop (j * step) l)) (seq 0 n)) = take (n * step) l.
Proof.
  induction n as [|n IH]; [reflexivity|].
  rewrite seq_S, map_app, concat_app, IH. simpl. rewrite app_nil_r.
  replace (step + n * step)%nat with (n * step + step)%nat by lia.
  now rewrite take_plus.
Qed.

Lemma map_result_total {A B} (f : A -> result B) (g : A -> B) (l : list A) :
  (forall x, f x = Ok (g x)) -> map_result f l = Ok (map g l).
Proof.
  intros Hf. induction l as [|x l IH]; [reflexivity|].
  simpl. now rewrite Hf, IH.
Qed.

Lemma str_app_length (a b : string) :
  String.length (a +:+ b) = (String.length a + String.length b)%nat.
Proof.
  induction a as [|c a IH]; [reflexivity|].
  rewrite str_app_cons. simpl. now rewrite IH.
Qed.

Lemma compositional_nil (dec : list Z -> string) :
  (forall a b, dec (a ++ b) = dec a +:+ dec b) -> dec [] = EmptyString.
Proof.
  intros Hdec. pose proof (Hdec [] []) as H. simpl in H.
  apply (f_equal String.length) in H. rewrite str_app_length in H.
  destruct (dec []); [reflexivity|simpl in H; lia].
Qed.

Lemma compositional_concat (dec : list Z -> string) (ws : list (list Z)) :
  (forall a b, dec (a ++ b) = dec a +:+ dec b) ->
  concat_str (map dec ws) = dec (concat ws).
Proof.
  intros Hdec. induction ws as [|w ws IH]; simpl.
  - symmetry. now apply compositional_nil.
  - now rewrite IH, Hdec.
Qed.

(** X17: in primary mode with a positive budget [L], the tokens of the text
    are cut into consecutive windows, none empty and none of more than [L]
    tokens, that put together are the tokens again; each chunk is one
    window decoded.  When the decoder is compositional and gives the text
    back from its tokens, the chunks put together are the text. *)
Theorem split_primary_round_trip (encode : string -> result (list Z))
    (decode : list Z -> result string) (dec : list Z -> string)
    (T : string) (L : Z) (toks : list Z) :
  0 < L -> encode T = Ok toks ->
  (forall l, decode l = Ok (dec l)) ->
  exists windows,
    split_by_tokens (Tiktoken encode decode) T L = Ok (map dec windows) /\
    concat windows = toks /\
    Forall (fun w => w <> [] /\ Z.of_nat (length w) <= L) windows /\
    ((forall a b, dec (a ++ b) = dec a +:+ dec b) -> dec toks = T ->
     concat_str (map dec windows) = T).
Proof.
  intros HL Henc Hdec.
  set (n := Z.to_nat ((Z.of_nat (length toks) + L - 1) / L)).
  set (s := Z.to_nat L).
  exists (map (fun j : nat => take s (drop (j * s) toks)) (seq 0 n)).
  pose proof (ceil_div_mul (Z.of_nat (length toks)) L HL ltac:(lia)) as Hq.
  cbv zeta in Hq.
  assert (Hwin : concat (map (fun j : nat => take s (drop (j * s) toks)) (seq 0 n)) = toks).
  { rewrite list_windows_concat. apply take_ge.
    unfold n, s. destruct Hq as [(Hq0 & Hq1 & _)|[Hz Hq0]]; [nia|].
    rewrite Hq0. simpl. lia. }
  split; [|split; [exact Hwin|split]].
  - unfold split_by_tokens, token_chunks. rewrite Henc. simpl.
    rewrite py_range_positive by assumption. simpl.
    rewrite (map_result_total decode dec) by assumption.
    f_equal. f_equal. rewrite map_map. apply map_ext. intros j.
    unfold slice_list, s. f_equal; [f_equal; lia|]. f_equal.
    rewrite Z2Nat.inj_mul, Nat2Z.id by lia. reflexivity.
  - apply Forall_forall. intros w Hw.
    apply list_elem_of_In, in_map_iff in Hw as (j & <- & Hj).
    apply in_seq in Hj. unfold n in Hj.
    destruct Hq as [(Hq0 & Hq1 & Hq2)|[_ Hq0]]; [|rewrite Hq0 in Hj; simpl in Hj; lia].
    assert (Hjq : Z.of_nat j <= (Z.of_nat (length toks) + L - 1) / L - 1) by lia.
    assert (Hj' : Z.of_nat j * L < Z.of_nat (length toks)).
    { assert (Z.of_nat j * L <= ((Z.of_nat (length toks) + L - 1) / L - 1) * L)
        by (apply Z.mul_le_mono_nonneg_r; lia). lia. }
    assert (Hlen : length (take s (drop (j * s) toks))
                   = Nat.min s (length toks - j * s)).
    { now rewrite length_take, length_drop. }
    split.
    + intros Hnil. rewrite Hnil in Hlen. simpl in Hlen. unfold s in Hlen. nia.
    + rewrite Hlen. unfold s. lia.
  - intros Hcomp Hback. rewrite compositional_concat by assumption.
    now rewrite Hwin.
Qed.

Lemma char_text_app (a b : list Z) :
  char_text (a ++ b) = char_text a +:+ char_text b.
Proof.
  unfold char_text. induction a as [|x a IH]; [reflexivity|].
  simpl. now rewrite IH.
Qed.

Lemma split_primary_round_trip_witness :
  exists windows,
    split_by_tokens char_encoder "abcdefg" 3 = Ok (map char_text windows) /\
    concat windows = char_tokens "abcdefg" /\
    Forall (fun w => w <> [] /\ Z.of_nat (length w) <= 3) windows /\
    ((forall a b, char_text (a ++ b) = char_text a +:+ char_text b) ->
     char_text (char_tokens "abcdefg") = "abcdefg" ->
     concat_str (map char_text windows) = "abcdefg").
Proof.
  apply (split_primary_round_trip
           (fun s => Ok (char_tokens s)) (fun toks => Ok (char_text toks)) char_text
           "abcdefg" 3 (char_tokens "abcdefg")).
  - lia.
  - reflexivity.
  - reflexivity.
Defined.

(** ** The cleaning steps *)

Ltac bits c := destruct c as [[] [] [] [] [] [] [] []].

(** The equation of [remove_fences], with the three backticks tested
    rather than matched. *)
Lemma remove_fences_eq (in_tag : bool) (c : ascii) (s' : string) :
  remove_fences in_tag (String c s') =
  if in_tag && is_word c then remove_fences true s'
  else if fence_ahead (String c s') then remove_fences true (str_drop 2 s')
       else String c (remove_fences false s').
Proof.
  cbn [remove_fences]. destruct (in_tag && is_word c); [reflexivity|].
  unfold fence_ahead, is_backtick.
  destruct (Ascii.eqb_spec c "`") as [->|Hc].
  - destruct s' as [|c2 s2]; [reflexivity|].
    destruct (Ascii.eqb_spec c2 "`") as [->|Hc2].
    + destruct s2 as [|c3 s3]; [reflexivity|].
      destruct (Ascii.eqb_spec c3 "`") as [->|Hc3]; [reflexivity|].
      bits c3; try reflexivity; congruence.
    + destruct s2 as [|c3 s3]; bits c2; try reflexivity; congruence.
  - destruct s' as [|c2 [|c3 s3]]; bits c; try reflexivity; congruence.
Qed.

Lemma fence_ahead_head (c : ascii) (s : string) :
  is_backtick c = false -> fence_ahead (String c s) = false.
Proof. intros Hc. destruct s as [|b [|d s]]; simpl; now rewrite ?Hc. Qed.

Lemma remove_fences_keep (c : ascii) (s' : string) :
  is_backtick c = false ->
  remove_fences false (String c s') = String c (remove_fences false s').
Proof. intros Hc. now rewrite remove_fences_eq, fence_ahead_head. Qed.

Lemma str_drop_le (n : nat) (s : string) :
  (String.length (str_drop n s) <= String.length s)%nat.
Proof. rewrite str_drop_length. lia. Qed.

Lemma remove_fences_no_fence_aux (n : nat) (s : string) (in_tag : bool) :
  (String.length s <= n)%nat -> has_fence (remove_fences in_tag s) = false.
Proof.
  revert s in_tag. induction n as [|n IH]; intros s in_tag Hn.
  - destruct s; [reflexivity|simpl in Hn; lia].
  - destruct s as [|c s']; [reflexivity|]. simpl in Hn.
    rewrite remove_fences_eq.
    destruct (in_tag && is_word c); [apply IH; lia|].
    destruct (fence_ahead (String c s')) eqn:Hf.
    { apply IH. pose proof (str_drop_le 2 s'). lia. }
    cbn [has_fence]. rewrite (IH s' false) by lia. rewrite orb_false_r.
    destruct (is_backtick c) eqn:Hc; [|now apply fence_ahead_head].
    destruct s' as [|c2 s2]; [reflexivity|].
    destruct (is_backtick c2) eqn:Hc2.
    + destruct s2 as [|c3 s3].
      * rewrite remove_fences_eq. simpl. now rewrite ?Hc, ?Hc2.
      * assert (Hc3 : is_backtick c3 = false).
        { simpl in Hf. rewrite Hc, Hc2 in Hf. exact Hf. }
        rewrite remove_fences_eq. cbn [andb].
        replace (fence_ahead (String c2 (String c3 s3))) with false
          by (destruct s3; simpl; now rewrite ?Hc3, ?andb_false_r).
        rewrite remove_fences_keep by assumption.
        simpl. now rewrite Hc3, !andb_false_r.
    + rewrite remove_fences_keep by assumption.
      destruct (remove_fences false s2); simpl; now rewrite ?Hc2, ?andb_false_r.
Qed.

Lemma remove_fences_no_fence (s : string) (in_tag : bool) :
  has_fence (remove_fences in_tag s) = false.
Proof. now apply (remove_fences_no_fence_aux (String.length s)). Qed.

(** A text without three backticks in a row is not changed. *)
Lemma remove_fences_fixed (s : string) :
  has_fence s = false -> remove_fences false s = s.
Proof.
  induction s as [|c s' IH]; [reflexivity|].
  cbn [has_fence]. intros H. apply orb_false_iff in H as [Hf Hs].
  rewrite remove_fences_eq, Hf. cbn [andb]. now rewrite IH.
Qed.

Lemma fence_ahead_app (a t : string) :
  fence_ahead a = true -> fence_ahead (a +:+ t) = true.
Proof. destruct a as [|x [|y [|z a]]]; simpl; auto; discriminate. Qed.

Lemma has_fence_app_l (a t : string) :
  has_fence (a +:+ t) = false -> has_fence a = false.
Proof.
  induction a as [|c a IH]; [reflexivity|].
  rewrite str_app_cons. cbn [has_fence]. intros H.
  apply orb_false_iff in H as [Hf Hs]. rewrite (IH Hs), orb_false_r.
  destruct (fence_ahead (String c a)) eqn:E; [|reflexivity].
  apply (fence_ahead_app _ t) in E. rewrite str_app_cons in E. congruence.
Qed.

Lemma has_fence_app_r (t a : string) :
  has_fence (t +:+ a) = false -> has_fence a = false.
Proof.
  induction t as [|c t IH]; [auto|].
  rewrite str_app_cons. cbn [has_fence]. intros H.
  apply orb_false_iff in H as [_ Hs]. auto.
Qed.

Lemma lstrip_suffix (s : string) : exists t, s = t +:+ lstrip s.
Proof.
  induction s as [|c s [t IH]]; [now exists EmptyString|].
  simpl. destruct (is_space c).
  - exists (String c t). now rewrite str_app_cons, <- IH.
  - now exists EmptyString.
Qed.

Lemma rstrip_prefix (s : string) : exists t, s = rstrip s +:+ t.
Proof.
  induction s as [|c s [t IH]]; [now exists EmptyString|].
  simpl. destruct (rstrip s) as [|x r] eqn:E.
  - destruct (is_space c).
    + now exists (String c s).
    + exists s. reflexivity.
  - exists t. now rewrite str_app_cons, <- IH.
Qed.

Lemma strip_no_fence (s : string) : has_fence s = false -> has_fence (strip s) = false.
Proof.
  intros H. unfold strip.
  destruct (lstrip_suffix s) as [t Ht]. rewrite Ht in H.
  apply has_fence_app_r in H.
  destruct (rstrip_prefix (lstrip s)) as [t' Ht']. rewrite Ht' in H.
  now apply has_fence_app_l in H.
Qed.

Lemma lstrip_head (s : string) : head_ok (lstrip s) = true.
Proof.
  induction s as [|c s IH]; [reflexivity|].
  simpl. destruct (is_space c) eqn:E; [assumption|]. simpl. now rewrite E.
Qed.

Lemma lstrip_fixed (s : string) : head_ok s = true -> lstrip s = s.
Proof.
  destruct s as [|c s]; [reflexivity|]. simpl.
  now destruct (is_space c).
Qed.

Lemma rstrip_head (s : string) : head_ok s = true -> head_ok (rstrip s) = true.
Proof.
  destruct s as [|c s]; [reflexivity|]. simpl. intros Hc.
  destruct (rstrip s); [|exact Hc].
  destruct (is_space c) eqn:E; [reflexivity|]. simpl. now rewrite E.
Qed.

Lemma rstrip_idem (s : string) : rstrip (rstrip s) = rstrip s.
Proof.
  induction s as [|c s IH]; [reflexivity|].
  simpl. destruct (rstrip s) as [|x r] eqn:E.
  - destruct (is_space c) eqn:Hc; [reflexivity|]. simpl. now rewrite Hc.
  - change (rstrip (String c (String x r))) with
      (match rstrip (String x r) with
       | EmptyString => if is_space c then EmptyString else String c EmptyString
       | r0 => String c r0
       end).
    now rewrite IH.
Qed.

Lemma strip_idem (s : string) : strip (strip s) = strip s.
Proof.
  unfold strip.
  rewrite (lstrip_fixed (rstrip (lstrip s))) by apply rstrip_head, lstrip_head.
  apply rstrip_idem.
Qed.

(** X18: after [_strip_markdown_fence] no run of three backticks is left and
    the text neither begins nor ends with a blank; the step is idempotent. *)
Theorem strip_markdown_fence_idempotent (s : string) :
  has_fence (_strip_markdown_fence s) = false /\
  strip (_strip_markdown_fence s) = _strip_markdown_fence s /\
  _strip_markdown_fence (_strip_markdown_fence s) = _strip_markdown_fence s.
Proof.
  unfold _strip_markdown_fence.
  assert (Hnf : has_fence (strip (remove_fences false s)) = false)
    by apply strip_no_fence, remove_fences_no_fence.
  split; [exact Hnf|]. split; [apply strip_idem|].
  rewrite (remove_fences_fixed _ Hnf). apply strip_idem.
Qed.

Lemma remove_fences_tag (tag rest : string) :
  all_word tag = true ->
  remove_fences true (tag +:+ rest) = remove_fences true rest.
Proof.
  induction tag as [|c tag IH]; [reflexivity|].
  simpl all_word. intros H. apply andb_true_iff in H as [Hc Ht].
  rewrite str_app_cons, remove_fences_eq, Hc. cbn [andb]. auto.
Qed.

Lemma remove_fences_body (body : string) :
  has_fence body = false ->
  remove_fences false (body +:+ nl +:+ "```") = body +:+ nl.
Proof.
  induction body as [|c body IH]; [intros _; reflexivity|].
  cbn [has_fence]. intros H. apply orb_false_iff in H as [Hf Hs].
  rewrite !str_app_cons, remove_fences_eq. cbn [andb].
  replace (fence_ahead (String c (body +:+ nl +:+ "```"))) with false.
  - now rewrite IH.
  - symmetry. destruct body as [|b [|d body]]; simpl in *.
    + now rewrite andb_false_r.
    + now rewrite andb_false_r.
    + exact Hf.
Qed.

Lemma rstrip_app_nl (x : string) : rstrip (x +:+ nl) = rstrip x.
Proof.
  induction x as [|c x IH]; [reflexivity|].
  rewrite str_app_cons. simpl. now rewrite IH.
Qed.

Lemma strip_app_nl (a : string) : strip (a +:+ nl) = strip a.
Proof.
  unfold strip. induction a as [|c a IH]; [reflexivity|].
  rewrite str_app_cons. simpl. destruct (is_space c); [exact IH|].
  change (String c (a +:+ nl)) with (String c a +:+ nl). apply rstrip_app_nl.
Qed.

(** X19: a fenced block is unwrapped: an opening fence with its language tag,
    a line feed, a body in which no three backticks follow one another, a
    line feed and a closing fence are reduced to the body, stripped of the
    blanks around it. *)
Theorem strip_markdown_fence_unwraps (tag body : string) :
  all_word tag = true -> has_fence body = false ->
  _strip_markdown_fence ("```" +:+ tag +:+ nl +:+ body +:+ nl +:+ "```") = strip body.
Proof.
  intros Htag Hbody. unfold _strip_markdown_fence.
  change ("```" +:+ tag +:+ nl +:+ body +:+ nl +:+ "```")
    with (String "`" (String "`" (String "`" (tag +:+ nl +:+ body +:+ nl +:+ "```")))).
  rewrite remove_fences_eq. cbn [andb fence_ahead is_backtick str_drop].
  change (Ascii.eqb "`" "`") with true. cbn [andb].
  rewrite remove_fences_tag by assumption.
  change (nl +:+ body +:+ nl +:+ "```") with (String (chr 10) (body +:+ nl +:+ "```")).
  rewrite remove_fences_eq. cbn [andb].
  rewrite fence_ahead_head by reflexivity.
  rewrite remove_fences_body by assumption.
  change (String (chr 10) (body +:+ nl)) with (nl +:+ (body +:+ nl)).
  unfold strip at 1. change (lstrip (nl +:+ (body +:+ nl))) with (lstrip (body +:+ nl)).
  apply strip_app_nl.
Qed.

Lemma strip_markdown_fence_unwraps_witness :
  _strip_markdown_fence ("```" +:+ "json" +:+ nl +:+ "{`a`: 1} " +:+ nl +:+ "```")
  = strip "{`a`: 1} ".
Proof.
  apply (strip_markdown_fence_unwraps "json" "{`a`: 1} "); reflexivity.
Defined.

Lemma sub_trailing_commas_inert (s : string) :
  no_char "," s = true -> sub_trailing_commas false s = s.
Proof.
  induction s as [|c s IH]; [reflexivity|].
  simpl. intros H. apply andb_true_iff in H as [Hc Hs].
  apply negb_true_iff in Hc. rewrite Hc. simpl. now rewrite IH.
Qed.

Lemma sub_missing_commas_inert (s : string) :
  no_char dquote s = true -> sub_missing_commas Scan s = s.
Proof.
  induction s as [|c s IH]; [reflexivity|].
  simpl. intros H. apply andb_true_iff in H as [Hc Hs].
  apply negb_true_iff in Hc. rewrite Hc. simpl. now rewrite IH.
Qed.

(** X20: the heuristics touch nothing but their triggers: a text without a
    comma passes [_remove_trailing_commas] unchanged, a text without a
    double quote passes [_add_missing_commas] unchanged, and a text with
    neither, and without three backticks in a row, is only stripped of the
    blanks around it by the whole cleaning. *)
Theorem clean_inert (s : string) :
  (no_char "," s = true -> _remove_trailing_commas s = s) /\
  (no_char dquote s = true -> _add_missing_commas s = s) /\
  (has_fence s = false -> no_char "," s = true -> no_char dquote s = true ->
   clean s = strip s).
Proof.
  split; [apply sub_trailing_commas_inert|]. split; [apply sub_missing_commas_inert|].
  intros Hf Hc Hq. unfold clean, CLEAN_STEPS. cbn [fold_left].
  unfold _strip_markdown_fence. rewrite remove_fences_fixed by assumption.
  assert (Hsub : forall c, no_char c s = true -> no_char c (strip s) = true).
  { intros c H. unfold strip.
    destruct (lstrip_suffix s) as [t Ht].
    destruct (rstrip_prefix (lstrip s)) as [t' Ht'].
    assert (Happ : forall a b, no_char c (a +:+ b) = no_char c a && no_char c b).
    { intros a b. induction a as [|x a IHa]; [reflexivity|].
      rewrite str_app_cons. simpl. now rewrite IHa, andb_assoc. }
    rewrite Ht, Happ in H. apply andb_true_iff in H as [_ H].
    rewrite Ht', Happ in H. now apply andb_true_iff in H as [H _]. }
  unfold _remove_trailing_commas, _add_missing_commas.
  rewrite sub_trailing_commas_inert by auto.
  now rewrite sub_missing_commas_inert by auto.
Qed.

Lemma clean_inert_witness :
  clean "  [1 2 3] " = strip "  [1 2 3] ".
Proof.
  destruct (clean_inert "  [1 2 3] ") as (_ & _ & H).
  apply H; reflexivity.
Defined.

(** ** The extractor *)

Lemma no_char_app (c : ascii) (a b : string) :
  no_char c (a +:+ b) = no_char c a && no_char c b.
Proof.
  induction a as [|x a IH]; [reflexivity|].
  rewrite str_app_cons. simpl. now rewrite IH, andb_assoc.
Qed.

Lemma no_char_occurs (c : ascii) (pre rest : string) :
  no_char c (pre +:+ String c rest) = false.
Proof.
  rewrite no_char_app. simpl. rewrite Ascii.eqb_refl. simpl.
  apply andb_false_r.
Qed.

Lemma find_from_spec (c : ascii) (s : string) (i : Z) :
  (no_char c s = true /\ find_from c s i = -1) \/
  (exists pre rest, s = pre +:+ String c rest /\ no_char c pre = true /\
                    find_from c s i = i + len pre).
Proof.
  revert i. induction s as [|x s IH]; intros i; [left; auto|].
  simpl. destruct (Ascii.eqb_spec x c) as [->|Hne].
  - right. exists EmptyString, s. repeat split. unfold len. simpl. lia.
  - destruct (IH (i + 1)) as [[Hn Hf]|(pre & rest & -> & Hn & Hf)].
    + left. auto.
    + right. exists (String x pre), rest. rewrite str_app_cons.
      split; [reflexivity|]. split.
      * simpl. rewrite Hn. now destruct (Ascii.eqb_spec x c).
      * rewrite Hf. unfold len. simpl. lia.
Qed.

Lemma rfind_from_spec (c : ascii) (s : string) (i last : Z) :
  (no_char c s = true /\ rfind_from c s i last = last) \/
  (exists pre post, s = pre +:+ String c post /\ no_char c post = true /\
                    rfind_from c s i last = i + len pre).
Proof.
  revert i last. induction s as [|x s IH]; intros i last; [left; auto|].
  simpl.
  destruct (IH (i + 1) (if Ascii.eqb x c then i else last))
    as [[Hn Hf]|(pre & post & -> & Hn & Hf)].
  - destruct (Ascii.eqb_spec x c) as [->|Hne].
    + right. exists EmptyString, s. repeat split; [assumption|].
      rewrite Hf. unfold len. simpl. lia.
    + left. auto.
  - right. exists (String x pre), post. rewrite str_app_cons.
    split; [reflexivity|]. split; [assumption|].
    rewrite Hf. unfold len. simpl. lia.
Qed.

Lemma str_app_split (a b c d : string) :
  a +:+ b = c +:+ d -> (String.length a <= String.length c)%nat ->
  exists x, c = a +:+ x /\ b = x +:+ d.
Proof.
  revert c. induction a as [|y a IH]; intros c H Hl.
  - exists c. auto.
  - destruct c as [|z c]; [simpl in Hl; lia|].
    rewrite !str_app_cons in H. injection H as -> H.
    destruct (IH c H) as [x [-> ->]]; [simpl in Hl; lia|].
    exists x. now rewrite str_app_cons.
Qed.

(** The first occurrence is the leftmost one, the last the rightmost. *)
Lemma first_occurrence_min (c : ascii) (pre1 rest1 pre rest : string) :
  pre1 +:+ String c rest1 = pre +:+ String c rest ->
  no_char c pre1 = true ->
  (String.length pre1 <= String.length pre)%nat.
Proof.
  intros H Hn.
  destruct (le_lt_dec (String.length pre1) (String.length pre)) as [|Hlt]; [assumption|].
  symmetry in H.
  assert (Hs : exists x, pre1 = pre +:+ x /\ String c rest = x +:+ String c rest1)
    by (apply str_app_split; [assumption|lia]).
  destruct Hs as [x [-> Hx]].
  rewrite str_app_length in Hlt.
  destruct x as [|y x]; [simpl in Hlt; lia|].
  rewrite str_app_cons in Hx. injection Hx as <- _.
  now rewrite no_char_occurs in Hn.
Qed.

Lemma last_occurrence_max (c : ascii) (pre2 post2 pre post : string) :
  pre2 +:+ String c post2 = pre +:+ String c post ->
  no_char c post2 = true ->
  (String.length pre <= String.length pre2)%nat.
Proof.
  intros H Hn.
  destruct (le_lt_dec (String.length pre) (String.length pre2)) as [|Hlt]; [assumption|].
  assert (Hs : exists x, pre = pre2 +:+ x /\ String c post2 = x +:+ String c post)
    by (apply str_app_split; [assumption|lia]).
  destruct Hs as [x [-> Hx]].
  rewrite str_app_length in Hlt.
  destruct x as [|y x]; [simpl in Hlt; lia|].
  rewrite str_app_cons in Hx. injection Hx as _ ->.
  now rewrite no_char_occurs in Hn.
Qed.

Lemma str_drop_app (a b : string) : str_drop (String.length a) (a +:+ b) = b.
Proof. induction a as [|c a IH]; [now destruct b|exact IH]. Qed.

Lemma str_take_app (a b : string) : str_take (String.length a) (a +:+ b) = a.
Proof.
  induction a as [|c a IH]; [now destruct b|].
  rewrite str_app_cons. simpl. now rewrite IH.
Qed.

(** X21: [_extract_json] returns the part of the text from its first opening
    brace to its last closing brace, both included: the text is that part
    between a prefix without opening brace and a suffix without closing
    brace.  It returns [None] exactly when no opening brace of the text is
    followed, anywhere later, by a closing brace.  The part returned is
    never empty, so that [_extract_json(raw) or raw] is the part when there
    is one and the whole answer otherwise. *)
Theorem extract_json_spec (blob : string) :
  match _extract_json blob with
  | Some b =>
      (exists pre mid post,
         blob = pre +:+ b +:+ post /\ b = String "{" (mid +:+ "}") /\
         no_char "{" pre = true /\ no_char "}" post = true) /\
      json_blob_of blob = b
  | None =>
      (forall pre mid post, blob <> pre +:+ String "{" (mid +:+ String "}" post)) /\
      json_blob_of blob = blob
  end.
Proof.
  assert (Hnone : forall c pre rest, no_char c blob = true ->
                                     blob <> pre +:+ String c rest).
  { intros c pre rest Hn ->. now rewrite no_char_occurs in Hn. }
  unfold json_blob_of, _extract_json, find, rfind.
  destruct (find_from_spec "{" blob 0) as [[Hn ->]|(pre1 & rest1 & H1 & Hn1 & ->)].
  { simpl. split; [|reflexivity]. intros pre mid post. now apply Hnone. }
  destruct (rfind_from_spec "}" blob 0 (-1)) as [[Hn ->]|(pre2 & post2 & H2 & Hn2 & ->)].
  { rewrite orb_true_r. simpl. split; [|reflexivity]. intros pre mid post E.
    apply (Hnone "}"%char (pre +:+ String "{" mid) post Hn).
    now rewrite E, str_app_assoc, str_app_cons. }
  assert (Hp1 : 0 <= len pre1) by (unfold len; lia).
  assert (Hp2 : 0 <= len pre2) by (unfold len; lia).
  replace (0 + len pre1 =? -1) with false by (symmetry; apply Z.eqb_neq; lia).
  replace (0 + len pre2 =? -1) with false by (symmetry; apply Z.eqb_neq; lia).
  cbn [orb].
  destruct (Z.leb_spec (0 + len pre2) (0 + len pre1)) as [Hle|Hlt].
  - split; [|reflexivity]. intros pre mid post E.
    assert (Ha : (String.length pre1 <= String.length pre)%nat).
    { apply (first_occurrence_min "{" pre1 rest1 pre (mid +:+ String "}" post));
        [congruence|assumption]. }
    assert (Hb : (String.length (pre +:+ String "{" mid) <= String.length pre2)%nat).
    { apply (last_occurrence_max "}" pre2 post2 (pre +:+ String "{" mid) post);
        [|assumption].
      rewrite <- H2, E. now rewrite str_app_assoc, str_app_cons. }
    rewrite str_app_length in Hb. simpl in Hb. unfold len in Hle. lia.
  - assert (Hl : (String.length pre1 <= String.length pre2)%nat)
      by (unfold len in Hlt; lia).
    assert (E : pre1 +:+ String "{" rest1 = pre2 +:+ String "}" post2) by congruence.
    destruct (str_app_split _ _ _ _ E Hl) as [x [-> Hx]].
    unfold len in Hlt. rewrite str_app_length in Hlt.
    destruct x as [|y mid]; [simpl in Hlt; lia|].
    rewrite str_app_cons in Hx. injection Hx as <- ->.
    assert (Hb : slice blob (0 + len pre1)
                   (0 + len (pre1 +:+ String "{" mid) + 1)
                 = String "{" (mid +:+ "}")).
    { unfold slice, len. rewrite H1, str_app_length. simpl String.length.
      replace (Z.to_nat (0 + Z.of_nat (String.length pre1))) with (String.length pre1)
        by lia.
      rewrite str_drop_app.
      replace (Z.to_nat _) with (String.length (String "{" (mid +:+ "}")))
        by (simpl; rewrite str_app_length; simpl; lia).
      replace (String "{" (mid +:+ String "}" post2))
        with (String "{" (mid +:+ "}") +:+ post2)
        by (now rewrite str_app_cons, str_app_assoc).
      apply str_take_app. }
    rewrite Hb. split; [|reflexivity].
    exists pre1, mid, post2. split; [|auto].
    rewrite H1. now rewrite !str_app_cons, str_app_assoc.
Qed.

Lemma bind_Raise {A B} (m : result A) (f : A -> result B) (e : exn) :
  (x ← m; f x) = Raise e -> m = Raise e \/ exists a, m = Ok a /\ f a = Raise e.
Proof. destruct m as [a|e']; simpl; [eauto|intros [= ->]; auto]. Qed.

Lemma validation_only_bind {A B} (m : result A) (f : A -> result B) :
  validation_only m -> (forall a, validation_only (f a)) ->
  validation_only (x ← m; f x).
Proof.
  intros Hm Hf e H. apply bind_Raise in H as [H|(a & _ & H)]; [now apply Hm|].
  now apply (Hf a).
Qed.

Lemma validation_only_Ok {A} (a : A) : validation_only (Ok a).
Proof. intros e H. discriminate. Qed.

Lemma validation_only_Raise {A} : validation_only (Raise ValidationError : result A).
Proof. intros e H. congruence. Qed.

Lemma validation_only_field {A} (data : dict) (k : string)
    (validate : value -> result A) (default : result A) :
  (forall v, validation_only (validate v)) -> validation_only default ->
  validation_only (field data k validate default).
Proof. intros Hv Hd. unfold field. destruct (dict_get data k); auto. Qed.

Lemma validation_only_str (v : value) : validation_only (validate_str v).
Proof. destruct v; try apply validation_only_Raise. apply validation_only_Ok. Qed.

Lemma validation_only_bool (v : value) : validation_only (validate_bool v).
Proof.
  destruct v as [|b|z|s|l|d]; try apply validation_only_Raise.
  - apply validation_only_Ok.
  - destruct z as [|[]|]; try apply validation_only_Raise; apply validation_only_Ok.
  - simpl. repeat match goal with
           | |- validation_only (if ?b then _ else _) => destruct b
           end; try apply validation_only_Raise; apply validation_only_Ok.
Qed.

Lemma validation_only_optional {A} (validate : value -> result A) (v : value) :
  (forall v, validation_only (validate v)) ->
  validation_only (validate_optional validate v).
Proof.
  intros Hv. destruct v; try apply validation_only_Ok;
    (apply validation_only_bind; [apply Hv|intros; apply validation_only_Ok]).
Qed.

Lemma validation_only_map {A B} (f : A -> result B) (l : list A) :
  (forall a, validation_only (f a)) -> validation_only (map_result f l).
Proof.
  intros Hf. induction l as [|x l IH]; [apply validation_only_Ok|].
  simpl. apply validation_only_bind; [apply Hf|]. intros y.
  apply validation_only_bind; [apply IH|]. intros ys. apply validation_only_Ok.
Qed.

Lemma validation_only_list {A} (validate : value -> result A) (v : value) :
  (forall v, validation_only (validate v)) ->
  validation_only (validate_list validate v).
Proof.
  intros Hv. destruct v; try apply validation_only_Raise.
  now apply validation_only_map.
Qed.

Lemma validation_only_dict (v : value) : validation_only (validate_dict v).
Proof. destruct v; try apply validation_only_Raise. apply validation_only_Ok. Qed.

Ltac validation :=
  repeat first
    [ apply validation_only_Ok
    | apply validation_only_Raise
    | apply validation_only_str
    | apply validation_only_bool
    | apply validation_only_dict
    | apply validation_only_optional; intros
    | apply validation_only_field; intros
    | apply validation_only_bind; intros ].

Lemma validation_only_party (v : value) : validation_only (validate_party v).
Proof. destruct v; try apply validation_only_Raise. simpl. unfold required. validation. Qed.

Lemma validation_only_clause (v : value) : validation_only (validate_clause v).
Proof. destruct v; try apply validation_only_Raise. simpl. unfold required. validation. Qed.

(** A construction raises nothing but [ValidationError]. *)
Lemma construct_validation_only (cls : schema_cls) (data : dict) :
  validation_only (construct cls data).
Proof.
  unfold construct, opt_str.
  apply validation_only_bind.
  { apply validation_only_field; [apply validation_only_str|].
    destruct (default_contract_type cls); [apply validation_only_Ok|apply validation_only_Raise]. }
  intros ct. apply validation_only_bind.
  { apply validation_only_field; [|apply validation_only_Ok].
    intros v. apply validation_only_list, validation_only_party. }
  intros ps. do 4 (apply validation_only_bind; [validation|intros ?]).
  apply validation_only_bind.
  { apply validation_only_field; [|apply validation_only_Ok].
    intros v. apply validation_only_list, validation_only_clause. }
  intros cs. apply validation_only_bind; [validation|]. intros cf.
  apply validation_only_bind; [|intros; apply validation_only_Ok].
  destruct cls; unfold construct_variant, opt_str, opt_bool; validation.
Qed.





(** X23: [_extract_single] raises [AttributeError] exactly when the answer
    parses to a value that is neither [None] nor an object (a list, a
    number, a string, a boolean), or to an object whose [contract_type] is
    not a string; an object without [contract_type] raises
    [ValidationError] instead of giving a generic record; no other
    exception is raised. *)
Theorem extract_single_errors (json_loads : string -> option value) (raw : string) :
  (_extract_single json_loads raw = Raise AttributeError <->
   match fix_and_load json_loads (json_blob_of raw) with
   | VNone => False
   | VDict d => exists v, dict_get d "contract_type" = Some v /\ forall s, v <> VStr s
   | _ => True
   end) /\
  (forall d, fix_and_load json_loads (json_blob_of raw) = VDict d ->
             dict_get d "contract_type" = None ->
             _extract_single json_loads raw = Raise ValidationError) /\
  _extract_single json_loads raw <> Raise ValueError.
Proof.
  unfold _extract_single.
  destruct (fix_and_load json_loads (json_blob_of raw)) as [|b|z|s|l|d].
  1: { split; [split; [discriminate|tauto]|]. split; discriminate. }
  1-4: split; [tauto|]; split; discriminate.
  destruct (dict_get d "contract_type") as [v|] eqn:Hget.
  - assert (Hstr : forall s, (construct (schema_get SCHEMA_MAP (lower s) Generic) d
                              = Raise AttributeError -> False) /\
                             construct (schema_get SCHEMA_MAP (lower s) Generic) d
                             <> Raise ValueError).
    { intros s. split.
      - intros H. now apply construct_validation_only in H.
      - intros H. now apply construct_validation_only in H. }
    split; [|split].
    + destruct v as [|b|z|s|l|d']; simpl;
        try (split; [intros _; eexists; split; [reflexivity|discriminate]|reflexivity]).
      split; [intros H; now apply Hstr in H|].
      intros (v & [= <-] & Hv). now destruct (Hv s).
    + intros d' [= <-] H. congruence.
    + destruct v as [|b|z|s|l|d']; simpl; try discriminate. apply Hstr.
  - assert (Hreq : (label ← Ok (lower EmptyString);
                    construct (schema_get SCHEMA_MAP label Generic) d)
                   = Raise ValidationError).
    { change (construct Generic d = Raise ValidationError).
      unfold construct, field. now rewrite Hget. }
    cbv beta iota. rewrite Hreq. split; [|split].
    + split; [discriminate|]. intros (v & [=] & _).
    + now intros.
    + discriminate.
Qed.

Lemma extract_single_errors_witness :
  _extract_single json_decode (js "{'parties': []}") = Raise ValidationError /\
  _extract_single json_decode "[1, 2]" = Raise AttributeError.
Proof.
  split.
  - destruct (extract_single_errors json_decode (js "{'parties': []}")) as (_ & H & _).
    apply (H [("parties", VList [])]); vm_compute; reflexivity.
  - destruct (extract_single_errors json_decode "[1, 2]") as (H & _).
    apply H. vm_compute. exact I.
Defined.
